(** * notion-docs/scripts/update.ts: the glossary and FAQ composers

    A shallow embedding of [update.ts] and of the parts of the JavaScript
    run-time it relies on (strings as sequences of UTF-16 code units,
    [Array.prototype.sort], the property order of ordinary objects, the
    regular expression of [renderDefinition]), followed by the properties
    of the composers.

    The modules [./format] and [./notion] are imported by [update.ts]; the
    functions and types taken from them are parameters of the development. *)

From Stdlib Require Import ZArith String Ascii Lia.
From stdpp Require Import gmap list sorting.

Local Open Scope Z_scope.

(** * JavaScript values used by the script *)

Module JS.

(** A string is a sequence of UTF-16 code units. *)
Definition jsstring : Type := list Z.

(** The string written by an ASCII literal of the source. *)
Definition lit (s : string) : jsstring :=
  (fun a => Z.of_nat (nat_of_ascii a)) <$> list_ascii_of_string s.

(** The characters the source writes with an escape or inside a template. *)
Definition nl : jsstring := [10].
Definition dq : jsstring := [34].

(** [arr.join('')] on an array of strings. *)
Definition join (parts : list jsstring) : jsstring := concat parts.

(** ** [Array.prototype.sort]

    The comparator returns a number, of which only the sign is used: a
    negative value puts its first argument first, a positive one its
    second, zero keeps the two in their order (the sort is stable).  The
    algorithm is left to the engine, and the result is defined only for a
    consistent comparator; [sort] below is the insertion sort, and
    [stable_sort_of] is what the language promises of any engine. *)

Section Sort.
Context {A : Type} (cmp : A -> A -> Z).

Fixpoint insert_sorted (x : A) (l : list A) : list A :=
  match l with
  | [] => [x]
  | y :: l' => if cmp x y <=? 0 then x :: y :: l' else y :: insert_sorted x l'
  end.

Definition sort (l : list A) : list A := foldr insert_sorted [] l.

(** A consistent comparator: it splits the values into classes of
    values that compare equal, and orders the classes totally. *)
Record Consistent : Prop := {
  cmp_refl : forall a, cmp a a = 0;
  cmp_sign : forall a b, cmp a b < 0 <-> 0 < cmp b a;
  cmp_trans : forall a b c, cmp a b <= 0 -> cmp b c <= 0 -> cmp a c <= 0
}.

Definition before (a b : A) : Prop := cmp a b <= 0.
Definition tied (a b : A) : Prop := cmp a b = 0.

#[global] Instance tied_dec a b : Decision (tied a b).
Proof. unfold tied. apply _. Defined.

(** [l'] is [l] sorted: in order, and every class of tied values keeps
    the members and the order it has in [l]. *)
Definition stable_sort_of (l l' : list A) : Prop :=
  StronglySorted before l' /\
  forall x, filter (tied x) l' = filter (tied x) l.

End Sort.

(** ** Ordinary objects used as dictionaries

    An object created by [{}] has the prototype [Object.prototype].  Its
    own properties are kept in the order of their creation; a property
    read that finds no own property continues in the prototype. *)

(** The property names of [Object.prototype]; every one of them holds a
    function or an object: a truthy value without a [push] method. *)
Definition object_prototype_names : list jsstring :=
  lit <$> [ "constructor"; "__defineGetter__"; "__defineSetter__";
            "hasOwnProperty"; "__lookupGetter__"; "__lookupSetter__";
            "isPrototypeOf"; "propertyIsEnumerable"; "toString"; "valueOf";
            "__proto__"; "toLocaleString" ]%string.

(** An array index is the canonical decimal form of an integer from 0 to
    2^32 - 2: digits only, no leading zero. *)
Definition is_digit (c : Z) : bool := (48 <=? c) && (c <=? 57).

Definition digits_value (s : jsstring) : Z :=
  fold_left (fun acc c => 10 * acc + (c - 48)) s 0.

Definition array_index (s : jsstring) : option Z :=
  match s with
  | [] => None
  | c :: rest =>
      if forallb is_digit s
         && (negb (c =? 48) || bool_decide (rest = []))
         && (digits_value s <? 4294967295)
      then Some (digits_value s)
      else None
  end.

Definition index_value (s : jsstring) : Z := default 0 (array_index s).

(** The own properties, oldest first. *)
Abbreviation object V := (list (jsstring * V)).

Section Object.
Context {V : Type}.

Inductive property : Type :=
  | Own (v : V)      (* an own property holding [v] *)
  | Inherited        (* found in [Object.prototype] *)
  | Undefined.

Fixpoint get_own (k : jsstring) (o : object V) : option V :=
  match o with
  | [] => None
  | (k', v) :: o' => if decide (k' = k) then Some v else get_own k o'
  end.

(** [o[k]] *)
Definition get (k : jsstring) (o : object V) : property :=
  match get_own k o with
  | Some v => Own v
  | None => if decide (k ∈ object_prototype_names) then Inherited else Undefined
  end.

(** [o[k] = v] for a name [k] that [o] neither owns nor inherits: a new
    own property, the youngest. *)
Definition define_own (k : jsstring) (v : V) (o : object V) : object V :=
  o ++ [(k, v)].

(** The value of the own property [k] changes in place (an array held
    there is pushed to, or sorted). *)
Fixpoint alter_own (f : V -> V) (k : jsstring) (o : object V) : object V :=
  match o with
  | [] => []
  | (k', v) :: o' =>
      if decide (k' = k) then (k', f v) :: o' else (k', v) :: alter_own f k o'
  end.

(** [for (let k in o)] visits the own properties in the order of
    [OrdinaryOwnPropertyKeys]: the array indices in ascending numeric
    order, then the other names in the order of their creation
    ([Object.prototype] has no enumerable property).  Each visit is
    given with the value that [o[k]] reads. *)
Definition for_in (o : object V) : list (jsstring * V) :=
  sort (fun a b => index_value a.1 - index_value b.1)
       (filter (fun kv => is_Some (array_index kv.1)) o)
  ++ filter (fun kv => array_index kv.1 = None) o.

End Object.

Arguments property : clear implicits.

(** A call either returns or throws a [TypeError]. *)
Inductive outcome (A : Type) : Type :=
  | Returned (a : A)
  | TypeError.
Arguments Returned {A} a.
Arguments TypeError {A}.

End JS.

Import JS.

(** * What [update.ts] imports *)

(** The types of [./notion] and the enumeration [DefinitionValidity] of
    [./format], of which the script names the member [Valid] and which it
    compares with [==]. *)
Class Types : Type := {
  RichText : Type;
  Block : Type;
  Project : Type;
  DefinitionValidity : Type;
  Valid : DefinitionValidity;
  DefinitionValidity_eq_dec :: EqDecision DefinitionValidity
}.

Section Records.
Context `{Types}.

Record Definition_ : Type := {
  pageId : jsstring;
  term : list RichText;
  definition : list RichText;
  url : jsstring
}.

Record FAQ : Type := {
  section : jsstring;
  order : Z;
  question : jsstring;
  answer : list RichText;
  blocks : list Block
}.

(** The entry that [main] stores for a definition. *)
Record LinkableTerm : Type := {
  text : jsstring;
  anchor : jsstring;
  page : jsstring;
  valid : DefinitionValidity;
  notionURL : jsstring
}.

(** The table [linkableTerms], an object created by [{}] and keyed by
    page identifier.  It is only ever read by key, so its own properties
    are a finite map; an assignment to the name [__proto__] reaches the
    setter of [Object.prototype] and replaces the prototype instead of
    creating a property. *)
Record LinkableTerms : Type := {
  lt_own : gmap jsstring LinkableTerm;
  lt_proto : option LinkableTerm
}.

Definition lt_empty : LinkableTerms := {| lt_own := ∅; lt_proto := None |}.

(** [linkableTerms[k] = v] *)
Definition lt_assign (k : jsstring) (v : LinkableTerm) (t : LinkableTerms)
  : LinkableTerms :=
  if decide (k = lit "__proto__")
  then {| lt_own := lt_own t; lt_proto := Some v |}
  else {| lt_own := <[k := v]> (lt_own t); lt_proto := lt_proto t |}.

Record RenderedDefinition : Type := {
  rd_term : jsstring;
  rd_definition : jsstring;
  rd_key : jsstring
}.

End Records.

(** The functions of [./format]. *)
Class Format `{Types} : Type := {
  stripCurlyQuotes : jsstring -> jsstring;
  renderBlocks : list Block -> LinkableTerms -> jsstring;
  renderRichTexts : list RichText -> LinkableTerms -> jsstring;
  formatGlossaryTermKey : list RichText -> LinkableTerms -> jsstring;
  validDefinitionToPublish : Definition_ -> Project -> DefinitionValidity
}.

(** [a.localeCompare(b)] without further arguments: the collation of the
    host's default locale. *)
Class Collation : Type := {
  localeCompare : jsstring -> jsstring -> Z
}.

(** * The script *)

Section Update.
Context `{Format} `{Collation}.

(** ** [renderDefinition] *)

(** The regular expression [/[^a-z0-9\s$-()-]/gi].  The class lists the
    ranges [a-z] and [0-9], the white space [\s], the range from [$] to
    [(], then [)] and [-].  Under the flag [i] a code unit belongs to a
    range when its canonical (upper case) form is that of a member; the
    canonical form of a code unit outside ASCII is never inside ASCII. *)
Definition canonicalize (c : Z) : Z :=
  if (97 <=? c) && (c <=? 122) then c - 32 else c.

Definition in_range (lo hi c : Z) : bool :=
  (canonicalize lo <=? canonicalize c) && (canonicalize c <=? canonicalize hi).

(** [\s]: WhiteSpace and LineTerminator. *)
Definition is_space (c : Z) : bool :=
  bool_decide (c ∈ [9; 10; 11; 12; 13; 32; 160; 5760; 8232; 8233; 8239;
                    8287; 12288; 65279])
  || (8192 <=? c) && (c <=? 8202).

Definition class_member (c : Z) : bool :=
  in_range 97 122 c       (* a-z *)
  || in_range 48 57 c     (* 0-9 *)
  || is_space c           (* \s *)
  || in_range 36 40 c     (* $-( *)
  || in_range 41 41 c     (* ) *)
  || in_range 45 45 c     (* - *).

(** [term.replace(/[^...]/gi, '')]: every code unit outside the class is
    removed. *)
Definition formatTerm (t : jsstring) : jsstring :=
  List.filter class_member t.

Definition renderDefinition (def : Definition_) (linkableTerms : LinkableTerms)
  : RenderedDefinition :=
  let term_ := renderRichTexts (term def) linkableTerms in
  let formattedTerm := formatTerm term_ in
  let dashDelimitedTermKey := formatGlossaryTermKey (term def) linkableTerms in
  {| rd_term := formattedTerm;
     rd_definition := renderRichTexts (definition def) linkableTerms;
     rd_key := dashDelimitedTermKey |}.

(** ** [formatDefinitions] *)

Definition by_term (a b : RenderedDefinition) : Z :=
  localeCompare (rd_term a) (rd_term b).

Definition glossaryEntry (item : RenderedDefinition) : jsstring :=
  lit "### " ++ rd_term item ++ lit " {#" ++ rd_key item ++ lit "}" ++ nl
  ++ rd_definition item ++ nl ++ nl.

Definition glossaryOpen : jsstring :=
  lit "<div class=" ++ dq ++ lit "hidden-glossary" ++ dq ++ lit ">" ++ nl ++ nl.

Definition glossaryClose : jsstring := nl ++ lit "</div>" ++ nl.

Definition formatDefinitions (definitions : list Definition_)
    (linkableTerms : LinkableTerms) : jsstring :=
  let renderedDefs := (fun def => renderDefinition def linkableTerms) <$> definitions in
  let renderedDefs := sort by_term renderedDefs in
  let htmlArray := glossaryEntry <$> renderedDefs in
  glossaryOpen ++ join htmlArray ++ glossaryClose.

(** The comparator of [formatDefinitions] seen from the definitions: two
    definitions compare as their rendered terms do. *)
Definition by_rendered_term (linkableTerms : LinkableTerms) (a b : Definition_) : Z :=
  by_term (renderDefinition a linkableTerms) (renderDefinition b linkableTerms).

(** ** [organizeFAQ] *)

Definition by_order (question1 question2 : FAQ) : Z :=
  order question1 - order question2.

(** One turn of the first loop. *)
Definition add_question (sections : object (list FAQ)) (q : FAQ)
  : outcome (object (list FAQ)) :=
  let sections :=
    match get (section q) sections with
    | Undefined => define_own (section q) [] sections
    | Own _ | Inherited => sections
    end in
  match get (section q) sections with
  | Own _ => Returned (alter_own (fun arr => arr ++ [q]) (section q) sections)
  | Inherited | Undefined => TypeError
  end.

Fixpoint add_questions (questions : list FAQ) (sections : object (list FAQ))
  : outcome (object (list FAQ)) :=
  match questions with
  | [] => Returned sections
  | q :: rest =>
      match add_question sections q with
      | Returned sections' => add_questions rest sections'
      | TypeError => TypeError
      end
  end.

(** The second loop. *)
Definition sort_sections (sections : object (list FAQ)) : object (list FAQ) :=
  fold_left (fun acc kv => alter_own (sort by_order) kv.1 acc)
            (for_in sections) sections.

Definition organizeFAQ (questions : list FAQ) : outcome (object (list FAQ)) :=
  match add_questions questions [] with
  | Returned sections => Returned (sort_sections sections)
  | TypeError => TypeError
  end.

(** ** [renderFAQ], [renderFAQs], [renderSections] *)

Definition renderedAnswer (faq : FAQ) (linkableTerms : LinkableTerms) : jsstring :=
  let renderedAnswer := renderRichTexts (answer faq) linkableTerms in
  if bool_decide (0 < length (blocks faq))%nat
  then renderBlocks (blocks faq) linkableTerms
  else renderedAnswer.

Definition renderFAQ (faq : FAQ) (linkableTerms : LinkableTerms) : jsstring :=
  let out := [] in
  let out := out ++ (lit "<dt data-displayed-on='dao-glossary'>"
                     ++ stripCurlyQuotes (question faq) ++ lit "</dt>" ++ nl) in
  let out := out ++ (lit "<dd data-displayed-on='dao-glossary'>"
                     ++ stripCurlyQuotes (renderedAnswer faq linkableTerms)
                     ++ lit "</dd>" ++ nl) in
  out.

Definition renderFAQs (faqs : list FAQ) (linkableTerms : LinkableTerms) : jsstring :=
  lit "<dl class=" ++ dq ++ lit "definition-list" ++ dq ++ lit ">" ++ nl
  ++ join ((fun faq => renderFAQ faq linkableTerms) <$> faqs)
  ++ lit "</dl>" ++ nl.

Definition sectionTitle (section_ : jsstring) : jsstring :=
  lit "<h3 class=" ++ dq ++ lit "faq-section-title" ++ dq ++ lit ">"
  ++ stripCurlyQuotes section_ ++ lit "</h3>" ++ nl.

Definition renderSections (sections : object (list FAQ))
    (linkableTerms : LinkableTerms) : jsstring :=
  fold_left (fun out kv =>
               let out := out ++ sectionTitle kv.1 in
               out ++ renderFAQs kv.2 linkableTerms)
            (for_in sections) [].

(** ** [main] *)

(** The entry of a definition, computed while the table holds
    [linkableTerms]. *)
Definition linkableTerm (governanceProject : Project) (definition_ : Definition_)
    (linkableTerms : LinkableTerms) : LinkableTerm :=
  {| text := renderRichTexts (term definition_) linkableTerms;
     anchor := formatGlossaryTermKey (term definition_) linkableTerms;
     page := lit "../dao-glossary.md";
     valid := validDefinitionToPublish definition_ governanceProject;
     notionURL := url definition_ |}.

(** The loop of [main] over the definitions. *)
Definition buildLinkableTerms (governanceProject : Project)
    (definitions : list Definition_) (linkableTerms : LinkableTerms) : LinkableTerms :=
  fold_left (fun tbl definition_ =>
               lt_assign (pageId definition_)
                         (linkableTerm governanceProject definition_ tbl) tbl)
            definitions linkableTerms.

Definition publishedDefinitions (governanceProject : Project)
    (definitions : list Definition_) : list Definition_ :=
  filter (fun def => validDefinitionToPublish def governanceProject = Valid)
         definitions.

(** What [main] writes: the glossary partial and the FAQ partial. *)
Record Partials : Type := {
  glossary_partial : jsstring;
  faq_partial : jsstring
}.

(** [main], from the values fetched to the two files written. *)
Definition main (governanceProject : Project) (faqs : list FAQ)
    (definitions : list Definition_) : outcome Partials :=
  let linkableTerms := buildLinkableTerms governanceProject definitions lt_empty in
  match organizeFAQ faqs with
  | TypeError => TypeError
  | Returned sections =>
      let sectionsHTML := renderSections sections linkableTerms in
      let publishedDefinitions := publishedDefinitions governanceProject definitions in
      let definitionsHTML := formatDefinitions publishedDefinitions linkableTerms in
      Returned {| glossary_partial := definitionsHTML; faq_partial := sectionsHTML |}
  end.

End Update.

(** * The script with its uses of the table recorded

    The same code once more, each function returning in addition the
    sequence of its accesses to [linkableTerms]: an assignment to a key, or
    a call of a function of [./format] that is passed the table, recorded
    with the table as it is at the moment of the call. *)

Inductive Callee : Type :=
| RenderRichTexts
| FormatGlossaryTermKey
| RenderBlocks.

Inductive Event `{Types} : Type :=
| Assign (k : jsstring)
| Consult (callee : Callee) (seen : LinkableTerms).

Section Traced.
Context `{Format} `{Collation}.

Definition Traced (A : Type) : Type := A * list Event.

Definition tret {A} (a : A) : Traced A := (a, []).

Definition tbind {A B} (m : Traced A) (f : A -> Traced B) : Traced B :=
  let (b, t) := f m.1 in (b, m.2 ++ t).

Notation "'do' x <- m ;; k" := (tbind m (fun x => k))
  (at level 10, x name, m at level 99, k at level 200).

Fixpoint tmap {A B} (f : A -> Traced B) (l : list A) : Traced (list B) :=
  match l with
  | [] => tret []
  | a :: l' => do b <- f a ;; do bs <- tmap f l' ;; tret (b :: bs)
  end.

Definition consult {A} (callee : Callee) (f : LinkableTerms -> A)
    (linkableTerms : LinkableTerms) : Traced A :=
  (f linkableTerms, [Consult callee linkableTerms]).

Definition assign (k : jsstring) (v : LinkableTerm) (linkableTerms : LinkableTerms)
  : Traced LinkableTerms :=
  (lt_assign k v linkableTerms, [Assign k]).

Definition renderDefinitionT (def : Definition_) (linkableTerms : LinkableTerms)
  : Traced RenderedDefinition :=
  do term_ <- consult RenderRichTexts (renderRichTexts (term def)) linkableTerms ;;
  do key <- consult FormatGlossaryTermKey (formatGlossaryTermKey (term def)) linkableTerms ;;
  do body <- consult RenderRichTexts (renderRichTexts (definition def)) linkableTerms ;;
  tret {| rd_term := formatTerm term_; rd_definition := body; rd_key := key |}.

Definition formatDefinitionsT (definitions : list Definition_)
    (linkableTerms : LinkableTerms) : Traced jsstring :=
  do renderedDefs <- tmap (fun def => renderDefinitionT def linkableTerms) definitions ;;
  tret (glossaryOpen ++ join (glossaryEntry <$> sort by_term renderedDefs)
        ++ glossaryClose).

Definition renderedAnswerT (faq : FAQ) (linkableTerms : LinkableTerms)
  : Traced jsstring :=
  do renderedAnswer <- consult RenderRichTexts (renderRichTexts (answer faq)) linkableTerms ;;
  if bool_decide (0 < length (blocks faq))%nat
  then consult RenderBlocks (renderBlocks (blocks faq)) linkableTerms
  else tret renderedAnswer.

Definition renderFAQT (faq : FAQ) (linkableTerms : LinkableTerms) : Traced jsstring :=
  do renderedAnswer <- renderedAnswerT faq linkableTerms ;;
  tret ((lit "<dt data-displayed-on='dao-glossary'>"
         ++ stripCurlyQuotes (question faq) ++ lit "</dt>" ++ nl)
        ++ (lit "<dd data-displayed-on='dao-glossary'>"
            ++ stripCurlyQuotes renderedAnswer ++ lit "</dd>" ++ nl)).

Definition renderFAQsT (faqs : list FAQ) (linkableTerms : LinkableTerms)
  : Traced jsstring :=
  do parts <- tmap (fun faq => renderFAQT faq linkableTerms) faqs ;;
  tret (lit "<dl class=" ++ dq ++ lit "definition-list" ++ dq ++ lit ">" ++ nl
        ++ join parts ++ lit "</dl>" ++ nl).

Fixpoint renderSectionsLoopT (visits : list (jsstring * list FAQ))
    (linkableTerms : LinkableTerms) (out : jsstring) : Traced jsstring :=
  match visits with
  | [] => tret out
  | kv :: rest =>
      do dl <- renderFAQsT kv.2 linkableTerms ;;
      renderSectionsLoopT rest linkableTerms ((out ++ sectionTitle kv.1) ++ dl)
  end.

Definition renderSectionsT (sections : object (list FAQ))
    (linkableTerms : LinkableTerms) : Traced jsstring :=
  renderSectionsLoopT (for_in sections) linkableTerms [].

Fixpoint buildLinkableTermsT (governanceProject : Project)
    (definitions : list Definition_) (linkableTerms : LinkableTerms)
  : Traced LinkableTerms :=
  match definitions with
  | [] => tret linkableTerms
  | definition_ :: rest =>
      do text_ <- consult RenderRichTexts (renderRichTexts (term definition_))
                       linkableTerms ;;
      do anchor_ <- consult FormatGlossaryTermKey
                         (formatGlossaryTermKey (term definition_)) linkableTerms ;;
      do tbl <- assign (pageId definition_)
                    {| text := text_;
                       anchor := anchor_;
                       page := lit "../dao-glossary.md";
                       valid := validDefinitionToPublish definition_ governanceProject;
                       notionURL := url definition_ |}
                    linkableTerms ;;
      buildLinkableTermsT governanceProject rest tbl
  end.

(** The accesses made after the loop over the definitions. *)
Definition composeT (governanceProject : Project) (faqs : list FAQ)
    (definitions : list Definition_) (linkableTerms : LinkableTerms)
  : Traced (outcome Partials) :=
  match organizeFAQ faqs with
  | TypeError => tret TypeError
  | Returned sections =>
      do sectionsHTML <- renderSectionsT sections linkableTerms ;;
      do definitionsHTML <-
        formatDefinitionsT (publishedDefinitions governanceProject definitions)
                           linkableTerms ;;
      tret (Returned {| glossary_partial := definitionsHTML;
                        faq_partial := sectionsHTML |})
  end.

Definition mainT (governanceProject : Project) (faqs : list FAQ)
    (definitions : list Definition_) : Traced (outcome Partials) :=
  do linkableTerms <- buildLinkableTermsT governanceProject definitions lt_empty ;;
  composeT governanceProject faqs definitions linkableTerms.

(** A trace of calls that are all passed the table [tbl]. *)
Definition reads_only (tbl : LinkableTerms) (trace : list Event) : Prop :=
  Forall (fun e => exists callee, e = Consult callee tbl) trace.

(** Every call that is passed the table comes after every assignment to
    it. *)
Definition built_before_read (trace : list Event) : Prop :=
  forall i j callee seen k,
    trace !! i = Some (Consult callee seen) ->
    trace !! j = Some (Assign k) ->
    (j < i)%nat.

End Traced.

(** * Runs on any engine

    [main] above sorts by insertion.  An engine is free in its algorithm,
    and bound only to return a stable sort; [runs] relates the fetched
    values to every result that some engine may produce. *)

Section Runs.
Context `{Format} `{Collation}.



End Runs.

(** * Notions of the specification *)

(** The names of a sequence, each at the place where it is first seen. *)
Fixpoint first_seen (names : list jsstring) : list jsstring :=
  match names with
  | [] => []
  | n :: rest => n :: filter (fun m => m <> n) (first_seen rest)
  end.

(** The entries grouped by section: the sections where they are first
    seen, each with its entries in the order of the input. *)
Definition grouped `{Types} (faqs : list FAQ) : object (list FAQ) :=
  (fun name => (name, filter (fun q => section q = name) faqs))
    <$> first_seen (section <$> faqs).

(** The characters a glossary term is said to keep: letters, digits,
    white space, [$], [-] and the two parentheses. *)
Definition is_letter (c : Z) : bool :=
  (65 <=? c) && (c <=? 90) || (97 <=? c) && (c <=? 122).

Definition term_character (c : Z) : bool :=
  is_letter c || is_digit c || is_space c
  || (c =? 36) || (c =? 45) || (c =? 40) || (c =? 41).

(** The section heading in markdown. *)
Definition markdownHeading (title : jsstring) : jsstring :=
  lit "### " ++ title.

(** * A small instance, for the examples *)

Module Sample.

Inductive validity : Type := Publishable | Draft | OtherProject.

#[local] Instance validity_eq_dec : EqDecision validity.
Proof. solve_decision. Defined.

(** Rich text and blocks are plain strings; a project is its name. *)
Definition types : Types :=
  {| RichText := jsstring;
     Block := jsstring;
     Project := jsstring;
     DefinitionValidity := validity;
     Valid := Publishable |}.

Definition curly (c : Z) : bool :=
  bool_decide (c ∈ [8216; 8217; 8220; 8221]).

(** A definition without a link to its source is a draft. *)
Definition format : @Format types :=
  @Build_Format types
    (fun s => List.filter (fun c => negb (curly c)) s)
    (fun (bs : list jsstring) _ => concat bs)
    (fun (spans : list jsstring) _ => concat spans)
    (fun (spans : list jsstring) _ => concat spans)
    (fun d _ => if decide (@url types d = []) then Draft else Publishable).

(** Code units in their numeric order, upper case ASCII letters taken as
    lower case. *)
Definition fold_case (c : Z) : Z :=
  if (65 <=? c) && (c <=? 90) then c + 32 else c.

Fixpoint compare_folded (a b : jsstring) : Z :=
  match a, b with
  | [], [] => 0
  | [], _ :: _ => -1
  | _ :: _, [] => 1
  | x :: a', y :: b' =>
      if fold_case x =? fold_case y then compare_folded a' b'
      else fold_case x - fold_case y
  end.

Definition collation : Collation := {| localeCompare := compare_folded |}.

(** Code units in their numeric order. *)
Fixpoint compare_units (a b : jsstring) : Z :=
  match a, b with
  | [], [] => 0
  | [], _ :: _ => -1
  | _ :: _, [] => 1
  | x :: a', y :: b' => if x =? y then compare_units a' b' else x - y
  end.

(** Two collations of hosts with different default locales, on strings
    of ASCII letters.  Both compare the letters without regard to case
    first.  Strings that differ in case only are told apart at their
    first difference: the one puts the lower case letter first, as the
    default collation of node does for English ([quorum] before
    [Quorum]), the other the upper case letter. *)
Definition compare_lower_first (a b : jsstring) : Z :=
  if compare_folded a b =? 0 then compare_units b a else compare_folded a b.


Definition lower_first : Collation := {| localeCompare := compare_lower_first |}.


#[local] Existing Instance types.
#[local] Existing Instance format.
#[local] Existing Instance collation.

Definition governance : Project := lit "Governance docs".

(** Four definitions; the third has no link and is a draft. *)
Definition quorum_upper : Definition_ :=
  {| pageId := lit "p1"; term := [lit "Quorum"];
     definition := [lit "The votes a proposal needs."]; url := lit "n/p1" |}.

Definition quorum_lower : Definition_ :=
  {| pageId := lit "p2"; term := [lit "quorum"];
     definition := [lit "See Quorum."]; url := lit "n/p2" |}.

Definition airdrop : Definition_ :=
  {| pageId := lit "p3"; term := [lit "Airdrop"];
     definition := [lit "To be written."]; url := [] |}.

Definition delegate : Definition_ :=
  {| pageId := lit "p4"; term := [lit "Delegate"];
     definition := [lit "A holder who votes for others."]; url := lit "n/p4" |}.

Definition definitions : list Definition_ :=
  [quorum_upper; quorum_lower; airdrop; delegate].

(** Sections [Voting], [Voting], [Rewards] with the orders 2, 1, 5. *)
Definition how_to_vote : FAQ :=
  {| section := lit "Voting"; order := 2; question := lit "How do I vote?";
     answer := [lit "Sign in."]; blocks := [] |}.

Definition who_votes : FAQ :=
  {| section := lit "Voting"; order := 1; question := lit "Who votes?";
     answer := [lit "unused"]; blocks := [lit "Every "; lit "holder."] |}.

Definition when_paid : FAQ :=
  {| section := lit "Rewards"; order := 5; question := lit "When am I paid?";
     answer := [lit "Weekly."]; blocks := [] |}.

Definition faqs : list FAQ := [how_to_vote; who_votes; when_paid].

(** What [main] is to write for them. *)
Definition partials : Partials :=
  {| glossary_partial :=
       lit "<div class=" ++ dq ++ lit "hidden-glossary" ++ dq ++ lit ">"
       ++ nl ++ nl
       ++ lit "### Delegate {#Delegate}" ++ nl
       ++ lit "A holder who votes for others." ++ nl ++ nl
       ++ lit "### Quorum {#Quorum}" ++ nl
       ++ lit "The votes a proposal needs." ++ nl ++ nl
       ++ lit "### quorum {#quorum}" ++ nl
       ++ lit "See Quorum." ++ nl ++ nl
       ++ nl ++ lit "</div>" ++ nl;
     faq_partial :=
       lit "<h3 class=" ++ dq ++ lit "faq-section-title" ++ dq ++ lit ">Voting</h3>"
       ++ nl
       ++ lit "<dl class=" ++ dq ++ lit "definition-list" ++ dq ++ lit ">" ++ nl
       ++ lit "<dt data-displayed-on='dao-glossary'>Who votes?</dt>" ++ nl
       ++ lit "<dd data-displayed-on='dao-glossary'>Every holder.</dd>" ++ nl
       ++ lit "<dt data-displayed-on='dao-glossary'>How do I vote?</dt>" ++ nl
       ++ lit "<dd data-displayed-on='dao-glossary'>Sign in.</dd>" ++ nl
       ++ lit "</dl>" ++ nl
       ++ lit "<h3 class=" ++ dq ++ lit "faq-section-title" ++ dq ++ lit ">Rewards</h3>"
       ++ nl
       ++ lit "<dl class=" ++ dq ++ lit "definition-list" ++ dq ++ lit ">" ++ nl
       ++ lit "<dt data-displayed-on='dao-glossary'>When am I paid?</dt>" ++ nl
       ++ lit "<dd data-displayed-on='dao-glossary'>Weekly.</dd>" ++ nl
       ++ lit "</dl>" ++ nl |}.

(** A section named by a letter before a section named by a number. *)
Definition lettered : FAQ :=
  {| section := lit "b"; order := 1; question := lit "First?";
     answer := [lit "Yes."]; blocks := [] |}.

Definition numbered : FAQ :=
  {| section := lit "1"; order := 1; question := lit "Second?";
     answer := [lit "Yes."]; blocks := [] |}.

(** A definition fetched a second time under the page identifier of
    [quorum_upper], from another address. *)
Definition quorum_again : Definition_ :=
  {| pageId := lit "p1"; term := [lit "Quorum"];
     definition := [lit "The votes a proposal needs."]; url := lit "n/p1b" |}.

(** A definition whose term is [R&D]. *)
Definition research : Definition_ :=
  {| pageId := lit "p5"; term := [lit "R&D"];
     definition := [lit "Research and development."]; url := lit "n/p5" |}.

End Sample.

(** * Properties of the sort *)

Section SortFacts.
Context {A : Type} (cmp : A -> A -> Z).

Lemma insert_sorted_perm (x : A) (l : list A) :
  insert_sorted cmp x l ≡ₚ x :: l.
Proof.
  induction l as [|y l IH]; simpl; [done|].
  destruct (cmp x y <=? 0); [done|].
  rewrite IH. apply Permutation_swap.
Qed.

Lemma sort_perm (l : list A) : sort cmp l ≡ₚ l.
Proof.
  induction l as [|x l IH]; simpl; [done|].
  fold (sort cmp l). by rewrite insert_sorted_perm, IH.
Qed.

Lemma sort_cons (x : A) (l : list A) :
  sort cmp (x :: l) = insert_sorted cmp x (sort cmp l).
Proof. reflexivity. Qed.

Section WithConsistent.
Hypothesis consistent : Consistent cmp.

Lemma tied_sym a b : tied cmp a b -> tied cmp b a.
Proof.
  unfold tied. intros Hab.
  pose proof (cmp_sign cmp consistent a b).
  pose proof (cmp_sign cmp consistent b a). lia.
Qed.

Lemma before_total a b : before cmp a b \/ before cmp b a.
Proof.
  unfold before. pose proof (cmp_sign cmp consistent b a). lia.
Qed.

Lemma tied_before a b : tied cmp a b <-> before cmp a b /\ before cmp b a.
Proof.
  unfold tied, before.
  pose proof (cmp_sign cmp consistent a b).
  pose proof (cmp_sign cmp consistent b a). lia.
Qed.

Lemma tied_trans a b c : tied cmp a b -> tied cmp b c -> tied cmp a c.
Proof.
  rewrite !tied_before. intros [? ?] [? ?].
  split; eapply (cmp_trans cmp consistent); eauto.
Qed.

Lemma insert_sorted_sorted (x : A) (l : list A) :
  StronglySorted (before cmp) l ->
  StronglySorted (before cmp) (insert_sorted cmp x l).
Proof.
  induction l as [|y l IH]; simpl; intros Hs.
  - repeat constructor.
  - apply StronglySorted_inv in Hs as [Hl Hy].
    destruct (Z.leb_spec (cmp x y) 0) as [Hxy|Hxy].
    + constructor; [by constructor|].
      constructor; [done|].
      eapply Forall_impl; [exact Hy|].
      intros z Hyz. by eapply (cmp_trans cmp consistent).
    + constructor; [by apply IH|].
      rewrite insert_sorted_perm. constructor; [|done].
      destruct (before_total y x) as [?|Hx]; [done|].
      unfold before in Hx. lia.
Qed.

Lemma sort_sorted (l : list A) : StronglySorted (before cmp) (sort cmp l).
Proof.
  induction l as [|x l IH]; [constructor|].
  rewrite sort_cons. by apply insert_sorted_sorted.
Qed.

Lemma insert_sorted_tied (x z : A) (l : list A) :
  filter (tied cmp z) (insert_sorted cmp x l) = filter (tied cmp z) (x :: l).
Proof.
  induction l as [|y l IH]; simpl; [done|].
  destruct (Z.leb_spec (cmp x y) 0) as [Hxy|Hxy]; [done|].
  rewrite (filter_cons _ y), IH, !filter_cons.
  destruct (decide (tied cmp z y)) as [Hzy|]; [|done].
  destruct (decide (tied cmp z x)) as [Hzx|]; [|done].
  exfalso.
  assert (tied cmp x y) as Hty by (eapply tied_trans; [by apply tied_sym|done]).
  unfold tied in Hty. lia.
Qed.

Lemma sort_tied (z : A) (l : list A) :
  filter (tied cmp z) (sort cmp l) = filter (tied cmp z) l.
Proof.
  induction l as [|x l IH]; [done|].
  rewrite sort_cons, insert_sorted_tied, !filter_cons, IH. done.
Qed.

(** The insertion sort is a stable sort. *)
Lemma sort_stable_sort_of (l : list A) : stable_sort_of cmp l (sort cmp l).
Proof. split; [apply sort_sorted | intros x; apply sort_tied]. Qed.

Lemma stable_sort_of_elem_of (l l' : list A) (x : A) :
  (forall z, filter (tied cmp z) l' = filter (tied cmp z) l) ->
  x ∈ l' -> x ∈ l.
Proof.
  intros Hf Hx.
  assert (x ∈ filter (tied cmp x) l') as Hin.
  { apply list_elem_of_filter. split; [apply (cmp_refl cmp consistent)|done]. }
  rewrite Hf in Hin. by apply list_elem_of_filter in Hin as [_ ?].
Qed.

(** Two lists in order with the same classes of tied values are the
    same list. *)
Lemma sorted_tied_unique (l1 l2 : list A) :
  StronglySorted (before cmp) l1 ->
  StronglySorted (before cmp) l2 ->
  (forall z, filter (tied cmp z) l1 = filter (tied cmp z) l2) ->
  l1 = l2.
Proof.
  revert l2. induction l1 as [|a l1 IH]; intros l2 Hs1 Hs2 Hf.
  - destruct l2 as [|b l2]; [done|].
    specialize (Hf b). rewrite filter_nil, filter_cons in Hf.
    destruct (decide (tied cmp b b)) as [|Hn]; [done|].
    destruct Hn. apply (cmp_refl cmp consistent).
  - destruct l2 as [|b l2].
    { specialize (Hf a). rewrite filter_nil, filter_cons in Hf.
      destruct (decide (tied cmp a a)) as [|Hn]; [done|].
      destruct Hn. apply (cmp_refl cmp consistent). }
    apply StronglySorted_inv in Hs1 as [Hs1 Ha].
    apply StronglySorted_inv in Hs2 as [Hs2 Hb].
    assert (before cmp a b) as Hab.
    { assert (b ∈ a :: l1) as Hin.
      { eapply (stable_sort_of_elem_of _ (b :: l2)); [done|left]. }
      apply elem_of_cons in Hin as [->|Hin].
      - unfold before. rewrite (cmp_refl cmp consistent). lia.
      - rewrite Forall_forall in Ha. by apply Ha. }
    assert (before cmp b a) as Hba.
    { assert (a ∈ b :: l2) as Hin.
      { eapply (stable_sort_of_elem_of _ (a :: l1)); [done|left]. }
      apply elem_of_cons in Hin as [->|Hin].
      - unfold before. rewrite (cmp_refl cmp consistent). lia.
      - rewrite Forall_forall in Hb. by apply Hb. }
    assert (tied cmp a b) as Ht by (by apply tied_before).
    assert (a = b) as ->.
    { specialize (Hf a). rewrite !filter_cons in Hf.
      destruct (decide (tied cmp a a)) as [|Hn];
        [|destruct Hn; apply (cmp_refl cmp consistent)].
      destruct (decide (tied cmp a b)); [|done]. congruence. }
    f_equal. apply IH; [done..|].
    intros z. specialize (Hf z). rewrite !filter_cons in Hf.
    destruct (decide (tied cmp z b)); congruence.
Qed.

(** Every engine returns what the insertion sort returns. *)
Lemma stable_sort_of_unique (l l' : list A) :
  stable_sort_of cmp l l' -> l' = sort cmp l.
Proof.
  intros [Hs Hf]. apply sorted_tied_unique; [done|apply sort_sorted|].
  intros z. by rewrite Hf, sort_tied.
Qed.

End WithConsistent.

End SortFacts.

Lemma insert_sorted_fmap {A B : Type} (f : A -> B) (cmp : B -> B -> Z)
    (x : A) (l : list A) :
  insert_sorted cmp (f x) (f <$> l)
  = f <$> insert_sorted (fun a b => cmp (f a) (f b)) x l.
Proof.
  induction l as [|y l IH]; [done|].
  rewrite fmap_cons. cbn [insert_sorted].
  destruct (cmp (f x) (f y) <=? 0); [done|].
  by rewrite fmap_cons, IH.
Qed.

(** Sorting commutes with a map, when the values are compared through it. *)
Lemma sort_fmap {A B : Type} (f : A -> B) (cmp : B -> B -> Z) (l : list A) :
  sort cmp (f <$> l) = f <$> sort (fun a b => cmp (f a) (f b)) l.
Proof.
  induction l as [|x l IH]; [done|].
  by rewrite fmap_cons, !sort_cons, IH, insert_sorted_fmap.
Qed.

Lemma Consistent_on {A B : Type} (f : A -> B) (cmp : B -> B -> Z) :
  Consistent cmp -> Consistent (fun a b => cmp (f a) (f b)).
Proof.
  intros [Hr Hs Ht]. split; intros.
  - apply Hr.
  - apply Hs.
  - by eapply Ht.
Qed.

Lemma Consistent_flip {A : Type} (cmp : A -> A -> Z) :
  Consistent cmp -> Consistent (fun a b => cmp b a).
Proof.
  intros Hc. split.
  - intros a. apply (cmp_refl cmp Hc).
  - intros a b. pose proof (cmp_sign cmp Hc a b).
    pose proof (cmp_sign cmp Hc b a). lia.
  - intros a b c Hab Hbc. by apply (cmp_trans cmp Hc c b a).
Qed.

(** A comparator that decides by a first comparator, and by a second
    one where the first reports a tie. *)
Lemma Consistent_lex {A : Type} (cmp1 cmp2 : A -> A -> Z) :
  Consistent cmp1 -> Consistent cmp2 ->
  Consistent (fun a b => if cmp1 a b =? 0 then cmp2 a b else cmp1 a b).
Proof.
  intros H1 H2. split.
  - intros a. rewrite (cmp_refl cmp1 H1), Z.eqb_refl. apply (cmp_refl cmp2 H2).
  - intros a b.
    pose proof (cmp_sign cmp1 H1 a b). pose proof (cmp_sign cmp1 H1 b a).
    pose proof (cmp_sign cmp2 H2 a b).
    destruct (Z.eqb_spec (cmp1 a b) 0), (Z.eqb_spec (cmp1 b a) 0); lia.
  - intros a b c.
    pose proof (cmp_trans cmp1 H1 a b c). pose proof (cmp_trans cmp2 H2 a b c).
    pose proof (cmp_trans cmp1 H1 c a b). pose proof (cmp_trans cmp1 H1 b c a).
    pose proof (cmp_sign cmp1 H1 a b). pose proof (cmp_sign cmp1 H1 b a).
    pose proof (cmp_sign cmp1 H1 b c). pose proof (cmp_sign cmp1 H1 c b).
    pose proof (cmp_sign cmp1 H1 a c). pose proof (cmp_sign cmp1 H1 c a).
    destruct (Z.eqb_spec (cmp1 a b) 0), (Z.eqb_spec (cmp1 b c) 0),
             (Z.eqb_spec (cmp1 a c) 0); lia.
Qed.



Lemma StronglySorted_weaken {A : Type} (R S : A -> A -> Prop) (l : list A) :
  (forall a b, R a b -> S a b) -> StronglySorted R l -> StronglySorted S l.
Proof.
  intros HRS. induction 1 as [|a l Hl IH Ha]; constructor; [done|].
  eapply Forall_impl; [exact Ha|]. intros b. apply HRS.
Qed.

(** * The glossary composer *)

Section Glossary.
Context `{Format} `{Collation}.

Lemma formatDefinitions_by_definition (definitions : list Definition_)
    (linkableTerms : LinkableTerms) :
  formatDefinitions definitions linkableTerms
  = glossaryOpen
    ++ join ((fun def => glossaryEntry (renderDefinition def linkableTerms))
               <$> sort (by_rendered_term linkableTerms) definitions)
    ++ glossaryClose.
Proof.
  unfold formatDefinitions. cbv zeta.
  by rewrite sort_fmap, <- list_fmap_compose.
Qed.

Lemma publishedDefinitions_sublist (governanceProject : Project)
    (definitions : list Definition_) :
  sublist (publishedDefinitions governanceProject definitions) definitions.
Proof. apply sublist_filter. Qed.

Lemma main_returns_glossary (governanceProject : Project) (faqs : list FAQ)
    (definitions : list Definition_) (parts : Partials) :
  main governanceProject faqs definitions = Returned parts ->
  glossary_partial parts
  = formatDefinitions (publishedDefinitions governanceProject definitions)
      (buildLinkableTerms governanceProject definitions lt_empty).
Proof.
  unfold main. destruct (organizeFAQ faqs); [|done].
  by intros [= <-].
Qed.

(** The characters that the regular expression of [renderDefinition]
    lets through: those the comment above it names, and the three
    between [$] and [(]: [%], [&] and ['].  The letters are those of
    ASCII. *)
Lemma class_member_characters (c : Z) :
  class_member c = true -> term_character c = true \/ 37 <= c <= 39.
Proof.
  unfold class_member, term_character, in_range, is_letter, is_digit.
  destruct (is_space c); [rewrite !orb_true_r; by left|].
  rewrite !orb_false_r.
  change (canonicalize 97) with 65. change (canonicalize 122) with 90.
  change (canonicalize 48) with 48. change (canonicalize 57) with 57.
  change (canonicalize 36) with 36. change (canonicalize 40) with 40.
  change (canonicalize 41) with 41. change (canonicalize 45) with 45.
  unfold canonicalize.
  destruct (Z.leb_spec 97 c), (Z.leb_spec c 122); cbn [andb];
    rewrite ?orb_true_iff, ?andb_true_iff, ?Z.leb_le, ?Z.eqb_eq; lia.
Qed.

Lemma formatTerm_characters (t : jsstring) :
  Forall (fun c => term_character c = true \/ 37 <= c <= 39) (formatTerm t).
Proof.
  apply Forall_forall. intros c Hc. apply list_elem_of_In in Hc.
  unfold formatTerm in Hc. apply filter_In in Hc as [_ Hc].
  by apply class_member_characters.
Qed.

(** C1. When [main] returns, the glossary partial is the container
    around one entry for each definition of a list [ds] that holds every
    fetched definition classified [Valid] exactly once, and no other
    definition (the fetched definitions being distinct by page
    identifier). *)
Theorem glossary_holds_valid_definitions_once
    (governanceProject : Project) (faqs : list FAQ)
    (definitions : list Definition_) (parts : Partials) :
  NoDup (pageId <$> definitions) ->
  main governanceProject faqs definitions = Returned parts ->
  let linkableTerms := buildLinkableTerms governanceProject definitions lt_empty in
  exists ds : list Definition_,
    glossary_partial parts
    = glossaryOpen
      ++ join ((fun def => glossaryEntry (renderDefinition def linkableTerms)) <$> ds)
      ++ glossaryClose
    /\ NoDup ds
    /\ forall def,
         def ∈ ds
         <-> def ∈ definitions
             /\ validDefinitionToPublish def governanceProject = Valid.
Proof.
  intros Hnd Hmain linkableTerms.
  exists (sort (by_rendered_term linkableTerms)
               (publishedDefinitions governanceProject definitions)).
  split; [|split].
  - rewrite (main_returns_glossary _ _ _ _ Hmain).
    apply formatDefinitions_by_definition.
  - rewrite sort_perm. apply NoDup_filter. by eapply NoDup_fmap_1.
  - intros def. rewrite sort_perm. unfold publishedDefinitions.
    rewrite list_elem_of_filter. tauto.
Qed.

(** C3, as the code has it.  The glossary entries are emitted in the
    order of [localeCompare], called on the rendered terms without any
    option: the order is that of the host's collation, which need not
    ignore case.  The entries whose terms [localeCompare] reports equal,
    and only those, keep the order in which they were fetched. *)
Theorem glossary_in_localeCompare_order_stable
    (governanceProject : Project) (definitions : list Definition_)
    (linkableTerms : LinkableTerms) :
  Consistent localeCompare ->
  let rendered def := renderDefinition def linkableTerms in
  let published := publishedDefinitions governanceProject definitions in
  exists ds : list Definition_,
    formatDefinitions published linkableTerms
    = lit "<div class=" ++ dq ++ lit "hidden-glossary" ++ dq ++ lit ">" ++ nl ++ nl
      ++ concat ((fun def =>
                    lit "### " ++ rd_term (rendered def)
                    ++ lit " {#" ++ rd_key (rendered def) ++ lit "}" ++ nl
                    ++ rd_definition (rendered def) ++ nl ++ nl) <$> ds)
      ++ nl ++ lit "</div>" ++ nl
    /\ ds ≡ₚ published
    /\ StronglySorted
         (fun a b =>
            localeCompare (rd_term (rendered a)) (rd_term (rendered b)) <= 0) ds
    /\ (forall x,
          filter (fun d =>
                    localeCompare (rd_term (rendered x)) (rd_term (rendered d)) = 0)
                 ds
          = filter (fun d =>
                      localeCompare (rd_term (rendered x)) (rd_term (rendered d)) = 0)
                   published)
    /\ sublist published definitions.
Proof.
  intros Hc rendered published.
  assert (Consistent (by_rendered_term linkableTerms)) as Hc'.
  { apply (Consistent_on (fun d => rd_term (renderDefinition d linkableTerms))
                         localeCompare Hc). }
  pose proof (sort_stable_sort_of _ Hc' published) as [Hs Ht].
  exists (sort (by_rendered_term linkableTerms) published).
  split.
  - rewrite formatDefinitions_by_definition.
    unfold glossaryOpen, glossaryClose, glossaryEntry, join.
    by rewrite <- !(assoc (++)).
  - split; [apply sort_perm|].
    split; [exact Hs|].
    split; [exact Ht|apply publishedDefinitions_sublist].
Qed.

(** C5, at the input that shows the defect.  A term that renders to
    [R&D] keeps its [&], which is none of the characters a term is to be
    made of: the class of the regular expression reads [$-(] as a
    range. *)
Theorem renderDefinition_keeps_ampersand (def : Definition_)
    (linkableTerms : LinkableTerms) :
  renderRichTexts (term def) linkableTerms = lit "R&D" ->
  rd_term (renderDefinition def linkableTerms) = lit "R&D"
  /\ ~ Forall (fun c => term_character c = true)
              (rd_term (renderDefinition def linkableTerms)).
Proof.
  intros Hterm. unfold renderDefinition. cbn [rd_term]. rewrite Hterm.
  split; [reflexivity|].
  intros Hall. vm_compute in Hall.
  apply Forall_cons in Hall as [_ Hall].
  apply Forall_cons in Hall as [Hamp _]. discriminate Hamp.
Qed.

(** C10. Without a definition to publish, [formatDefinitions] returns
    the container alone; with or without, it never returns the empty
    string. *)
Theorem formatDefinitions_empty_container (linkableTerms : LinkableTerms) :
  formatDefinitions [] linkableTerms
  = lit "<div class=" ++ dq ++ lit "hidden-glossary" ++ dq ++ lit ">"
    ++ nl ++ nl ++ nl ++ lit "</div>" ++ nl
  /\ forall definitions, formatDefinitions definitions linkableTerms <> [].
Proof.
  split; [reflexivity|].
  intros definitions. unfold formatDefinitions. cbv zeta. discriminate.
Qed.

End Glossary.

(** * Objects and the order of their properties *)

(** Decide the first test of the goal, given what settles it. *)
Ltac settle_elem :=
  solve [ done | apply not_elem_of_nil | by left | by right
        | by apply list_elem_of_here | by apply list_elem_of_further
        | rewrite elem_of_cons; intuition congruence | by intros [? ?]
        | intuition congruence ].

Ltac decide_yes :=
  match goal with
  | |- context [decide ?P] => rewrite (decide_True (P := P)) by settle_elem
  end.

Ltac decide_no :=
  match goal with
  | |- context [decide ?P] => rewrite (decide_False (P := P)) by settle_elem
  end.

Section FirstSeen.

Lemma elem_of_first_seen (n : jsstring) (names : list jsstring) :
  n ∈ first_seen names <-> n ∈ names.
Proof.
  induction names as [|m names IH]; simpl; [done|].
  rewrite !elem_of_cons, list_elem_of_filter, IH.
  destruct (decide (n = m)); intuition congruence.
Qed.

Lemma NoDup_first_seen (names : list jsstring) : NoDup (first_seen names).
Proof.
  induction names as [|m names IH]; simpl; constructor.
  - rewrite list_elem_of_filter. by intros [? _].
  - by apply NoDup_filter.
Qed.

Lemma first_seen_snoc (names : list jsstring) (n : jsstring) :
  first_seen (names ++ [n])
  = if decide (n ∈ names) then first_seen names else first_seen names ++ [n].
Proof.
  induction names as [|m names IH]; [done|].
  cbn [app first_seen].
  - rewrite IH. destruct (decide (n ∈ names)) as [Hin|Hin].
    + by decide_yes.
    + rewrite filter_app, filter_cons, filter_nil.
      destruct (decide (n = m)) as [->|Hne].
      * decide_yes. decide_no. by rewrite app_nil_r.
      * decide_no. by decide_yes.
Qed.

End FirstSeen.

Section ObjectFacts.
Context {V : Type}.
Implicit Types (o : object V) (k : jsstring).

Lemma keys_fmap (g : jsstring -> V) (ks : list jsstring) :
  ((fun k => (k, g k)) <$> ks).*1 = ks.
Proof.
  rewrite <- list_fmap_compose.
  rewrite <- (list_fmap_id ks) at 2. by apply list_fmap_ext.
Qed.

Lemma get_own_None k o : get_own k o = None <-> k ∉ o.*1.
Proof.
  induction o as [|[k' v] o IH]; simpl.
  - split; [intros _; apply not_elem_of_nil|done].
  - rewrite not_elem_of_cons. destruct (decide (k' = k)); intuition congruence.
Qed.

Lemma get_own_fmap (g : jsstring -> V) k (ks : list jsstring) :
  get_own k ((fun k' => (k', g k')) <$> ks)
  = if decide (k ∈ ks) then Some (g k) else None.
Proof.
  induction ks as [|k' ks IH]; [done|]. csimpl.
  - destruct (decide (k' = k)) as [->|Hne].
    + by decide_yes.
    + rewrite IH. destruct (decide (k ∈ ks)).
      * by decide_yes.
      * by decide_no.
Qed.

Lemma alter_own_keys (f : V -> V) k o : (alter_own f k o).*1 = o.*1.
Proof.
  induction o as [|[k' v] o IH]; [done|]. cbn [alter_own].
  destruct (decide (k' = k)); csimpl; [done|by rewrite IH].
Qed.

Lemma alter_own_absent (f : V -> V) k o : k ∉ o.*1 -> alter_own f k o = o.
Proof.
  induction o as [|[k' v] o IH]; simpl; [done|].
  rewrite not_elem_of_cons. intros [Hne Hk].
  decide_no. by rewrite IH.
Qed.

(** In an object each name is owned once, and [alter_own] changes the
    value of that name and of no other. *)
Lemma alter_own_fmap (f : V -> V) k o :
  NoDup o.*1 ->
  alter_own f k o
  = (fun kv => if decide (kv.1 = k) then (kv.1, f kv.2) else kv) <$> o.
Proof.
  induction o as [|[k' v] o IH]; simpl; [done|].
  intros [Hk' Hnd]%NoDup_cons.
  destruct (decide (k' = k)) as [->|Hne].
  - f_equal. rewrite <- (list_fmap_id o) at 1.
    apply list_fmap_ext. intros i [k2 v2] Hi. simpl.
    destruct (decide (k2 = k)) as [->|]; [|done].
    destruct Hk'. apply list_elem_of_fmap.
    exists (k, v2). split; [done|]. by eapply list_elem_of_lookup_2.
  - by rewrite IH.
Qed.

Lemma alter_own_app_r (f : V -> V) k o o' :
  k ∉ o.*1 -> alter_own f k (o ++ o') = o ++ alter_own f k o'.
Proof.
  induction o as [|[k' v] o IH]; simpl; [done|].
  rewrite not_elem_of_cons. intros [Hne Hk].
  decide_no. by rewrite IH.
Qed.

Lemma get_own_app_r k o o' :
  k ∉ o.*1 -> get_own k (o ++ o') = get_own k o'.
Proof.
  induction o as [|[k' v] o IH]; simpl; [done|].
  rewrite not_elem_of_cons. intros [Hne Hk].
  decide_no. by rewrite IH.
Qed.

Lemma for_in_perm o : for_in o ≡ₚ o.
Proof.
  unfold for_in. rewrite sort_perm.
  induction o as [|[k v] o IH]; [done|].
  rewrite !filter_cons. simpl.
  destruct (array_index k) eqn:Hk.
  - decide_yes. decide_no. simpl. by rewrite IH.
  - decide_no. decide_yes.
    rewrite <- Permutation_middle. by rewrite IH.
Qed.

(** Without an array index among the names, the properties are visited
    in the order of their creation. *)
Lemma for_in_creation_order o :
  Forall (fun k => array_index k = None) o.*1 -> for_in o = o.
Proof.
  intros Hall. unfold for_in.
  assert (filter (fun kv : jsstring * V => is_Some (array_index kv.1)) o = []) as ->.
  { induction o as [|[k v] o IH]; [done|].
    apply Forall_cons in Hall as [Hk Hall]. rewrite filter_cons. simpl in *.
    rewrite Hk. decide_no. by apply IH. }
  simpl.
  induction o as [|[k v] o IH]; [done|].
  apply Forall_cons in Hall as [Hk Hall]. rewrite filter_cons. simpl in *.
  decide_yes. by rewrite IH.
Qed.

Lemma filter_keys_fmap (Q : jsstring * V -> Prop) (P : jsstring -> Prop)
    `{forall kv, Decision (Q kv)} `{forall k, Decision (P k)}
    (g : jsstring -> V) (ks : list jsstring) :
  (forall k, Q (k, g k) <-> P k) ->
  filter Q ((fun k => (k, g k)) <$> ks) = (fun k => (k, g k)) <$> filter P ks.
Proof.
  intros HQP. induction ks as [|k ks IH]; [done|].
  rewrite fmap_cons, !filter_cons.
  destruct (decide (P k)) as [Hk|Hk].
  - rewrite decide_True by (by apply HQP). by rewrite fmap_cons, IH.
  - by rewrite decide_False by (by rewrite HQP).
Qed.

(** The visits of [for (let k in o)] told from the names in the order of
    their creation: the array indices in ascending order, then the
    others. *)
Lemma for_in_fmap (g : jsstring -> V) (ks : list jsstring) :
  for_in ((fun k => (k, g k)) <$> ks)
  = (fun k => (k, g k))
      <$> (sort (fun a b => index_value a - index_value b)
                (filter (fun k => is_Some (array_index k)) ks)
           ++ filter (fun k => array_index k = None) ks).
Proof.
  unfold for_in.
  rewrite (filter_keys_fmap _ (fun k => is_Some (array_index k))) by done.
  rewrite (filter_keys_fmap _ (fun k => array_index k = None)) by done.
  by rewrite fmap_app, (sort_fmap (fun k => (k, g k))
                          (fun a b => index_value a.1 - index_value b.1)).
Qed.

(** A loop over distinct names that changes in place the value of each. *)
Lemma fold_alter_own (f : V -> V) (visits : list (jsstring * V)) o :
  NoDup visits.*1 -> NoDup o.*1 ->
  fold_left (fun acc kv => alter_own f kv.1 acc) visits o
  = (fun kv => if decide (kv.1 ∈ visits.*1) then (kv.1, f kv.2) else kv) <$> o.
Proof.
  revert o. induction visits as [|[k v] visits IH]; intros o Hv Ho; simpl.
  - rewrite <- (list_fmap_id o) at 1. apply list_fmap_ext.
    by intros i kv _.
  - apply NoDup_cons in Hv as [Hk Hv].
    rewrite IH by (by rewrite ?alter_own_keys).
    rewrite alter_own_fmap by done. rewrite <- list_fmap_compose.
    apply list_fmap_ext. intros i [k' v'] _. simpl.
    destruct (decide (k' = k)) as [->|Hne]; simpl.
    + decide_no. by decide_yes.
    + destruct (decide (k' ∈ visits.*1)).
      * by decide_yes.
      * by decide_no.
Qed.

End ObjectFacts.

(** * The FAQ composer *)

Lemma filter_none {A : Type} (P : A -> Prop) `{forall x, Decision (P x)} (l : list A) :
  (forall x, x ∈ l -> ~ P x) -> filter P l = [].
Proof.
  induction l as [|x l IH]; intros Hl; [done|].
  rewrite filter_cons. rewrite decide_False by (apply Hl; left).
  apply IH. intros y Hy. apply Hl. by right.
Qed.

Section Organize.
Context `{Types}.

Lemma by_order_consistent : Consistent by_order.
Proof. unfold by_order. split; intros; lia. Qed.

Lemma add_questions_app (qs1 qs2 : list FAQ) (sections : object (list FAQ)) :
  add_questions (qs1 ++ qs2) sections
  = match add_questions qs1 sections with
    | Returned sections' => add_questions qs2 sections'
    | TypeError => TypeError
    end.
Proof.
  revert sections. induction qs1 as [|q qs1 IH]; intros sections; [done|].
  cbn [app add_questions]. destruct (add_question sections q); [apply IH|done].
Qed.

Lemma grouped_keys (faqs : list FAQ) :
  (grouped faqs).*1 = first_seen (section <$> faqs).
Proof. apply keys_fmap. Qed.

Lemma grouped_NoDup (faqs : list FAQ) : NoDup (grouped faqs).*1.
Proof. rewrite grouped_keys. apply NoDup_first_seen. Qed.

(** One more question: it joins its section, which is created last if
    it is new. *)
Lemma grouped_snoc (faqs : list FAQ) (q : FAQ) :
  grouped (faqs ++ [q])
  = if decide (section q ∈ section <$> faqs)
    then alter_own (fun arr => arr ++ [q]) (section q) (grouped faqs)
    else grouped faqs ++ [(section q, [q])].
Proof.
  unfold grouped at 1. rewrite fmap_app.
  change (section <$> [q]) with [section q]. rewrite first_seen_snoc.
  destruct (decide (section q ∈ section <$> faqs)) as [Hin|Hin].
  - rewrite alter_own_fmap by apply grouped_NoDup.
    unfold grouped. rewrite <- list_fmap_compose.
    apply list_fmap_ext. intros i name _.
    cbn. rewrite filter_app, filter_cons, filter_nil.
    destruct (decide (name = section q)) as [->|Hne].
    + by decide_yes.
    + rewrite decide_False by congruence. by rewrite app_nil_r.
  - rewrite fmap_app. unfold grouped. f_equal.
    + apply list_fmap_ext. intros i name Hi. f_equal.
      rewrite filter_app, filter_cons, filter_nil.
      rewrite decide_False; [by rewrite app_nil_r|].
      intros Heq. apply Hin. rewrite Heq.
      apply elem_of_first_seen. by eapply list_elem_of_lookup_2.
    + cbn. f_equal. f_equal. rewrite filter_app, filter_cons, filter_nil.
      decide_yes. rewrite filter_none; [done|].
      intros q' Hq' Heq. apply Hin.
      rewrite <- Heq. by apply list_elem_of_fmap_2.
Qed.

Lemma get_own_grouped (faqs : list FAQ) (name : jsstring) :
  get_own name (grouped faqs)
  = if decide (name ∈ section <$> faqs)
    then Some (filter (fun q => section q = name) faqs)
    else None.
Proof.
  unfold grouped.
  rewrite (get_own_fmap (fun name => filter (fun q => section q = name) faqs)).
  destruct (decide (name ∈ section <$> faqs)) as [Hin|Hin].
  - by rewrite decide_True by (by apply elem_of_first_seen).
  - by rewrite decide_False by (by rewrite elem_of_first_seen).
Qed.

(** A turn of the first loop for a question whose section is not a name
    of [Object.prototype]. *)
Lemma add_question_grouped (faqs : list FAQ) (q : FAQ) :
  section q ∉ object_prototype_names ->
  add_question (grouped faqs) q = Returned (grouped (faqs ++ [q])).
Proof.
  intros Hq. rewrite grouped_snoc. unfold add_question, get.
  rewrite get_own_grouped.
  destruct (decide (section q ∈ section <$> faqs)) as [Hin|Hin].
  - rewrite get_own_grouped. by rewrite decide_True by done.
  - rewrite (decide_False (P := section q ∈ object_prototype_names)) by done.
    unfold define_own.
    assert (section q ∉ (grouped faqs).*1) as Hkeys.
    { by rewrite grouped_keys, elem_of_first_seen. }
    rewrite get_own_app_r by done. cbn [get_own].
    rewrite decide_True by done.
    rewrite alter_own_app_r by done. cbn [alter_own].
    by rewrite decide_True by done.
Qed.

(** A turn for a question whose section is a name of [Object.prototype]
    throws: the name is found there, and what is found cannot be pushed
    to. *)
Lemma add_question_inherited (faqs : list FAQ) (q : FAQ) :
  Forall (fun q' => section q' ∉ object_prototype_names) faqs ->
  section q ∈ object_prototype_names ->
  add_question (grouped faqs) q = TypeError.
Proof.
  intros Hall Hq. unfold add_question, get.
  assert (get_own (section q) (grouped faqs) = None) as ->.
  { apply get_own_None. rewrite grouped_keys, elem_of_first_seen.
    intros (q' & Heq & Hq')%list_elem_of_fmap.
    rewrite Forall_forall in Hall. apply (Hall q' Hq'). by rewrite <- Heq. }
  decide_yes.
  assert (get_own (section q) (grouped faqs) = None) as ->; [|done].
  apply get_own_None. rewrite grouped_keys, elem_of_first_seen.
  intros (q' & Heq & Hq')%list_elem_of_fmap.
  rewrite Forall_forall in Hall. apply (Hall q' Hq'). by rewrite <- Heq.
Qed.

(** The first loop. *)
Lemma add_questions_grouped (faqs : list FAQ) :
  add_questions faqs []
  = if decide (Forall (fun q => section q ∉ object_prototype_names) faqs)
    then Returned (grouped faqs)
    else TypeError.
Proof.
  induction faqs as [|q faqs IH] using rev_ind.
  - by rewrite decide_True by constructor.
  - rewrite add_questions_app, IH.
    destruct (decide (Forall _ faqs)) as [Hall|Hall].
    + cbn [add_questions].
      destruct (decide (section q ∈ object_prototype_names)) as [Hq|Hq].
      * rewrite add_question_inherited by done.
        rewrite decide_False; [done|].
        rewrite Forall_app, Forall_singleton. tauto.
      * rewrite add_question_grouped by done.
        rewrite decide_True; [done|].
        rewrite Forall_app, Forall_singleton. tauto.
    + rewrite decide_False; [done|]. rewrite Forall_app. tauto.
Qed.

(** The second loop sorts the array of every section. *)
Lemma sort_sections_fmap (sections : object (list FAQ)) :
  NoDup sections.*1 ->
  sort_sections sections
  = (fun kv => (kv.1, sort by_order kv.2)) <$> sections.
Proof.
  intros Hnd. unfold sort_sections.
  rewrite fold_alter_own; [|by rewrite for_in_perm|done].
  apply list_fmap_ext. intros i kv Hi.
  rewrite decide_True; [done|].
  rewrite for_in_perm. apply list_elem_of_fmap_2. by eapply list_elem_of_lookup_2.
Qed.

Lemma organizeFAQ_grouped (faqs : list FAQ) :
  organizeFAQ faqs
  = if decide (Forall (fun q => section q ∉ object_prototype_names) faqs)
    then Returned ((fun kv => (kv.1, sort by_order kv.2)) <$> grouped faqs)
    else TypeError.
Proof.
  unfold organizeFAQ. rewrite add_questions_grouped.
  destruct (decide _); [|done].
  by rewrite sort_sections_fmap by apply grouped_NoDup.
Qed.

Lemma alter_own_concat (q : FAQ) (k : jsstring) (o : object (list FAQ)) :
  k ∈ o.*1 ->
  concat (alter_own (fun arr => arr ++ [q]) k o).*2 ≡ₚ q :: concat o.*2.
Proof.
  induction o as [|[k' arr] o IH]; [by intros ?%elem_of_nil|].
  cbn [alter_own]. destruct (decide (k' = k)) as [->|Hne]; csimpl.
  - intros _. rewrite <- (assoc (++)). cbn.
    by rewrite <- Permutation_middle.
  - intros [?|Hin]%elem_of_cons; [congruence|].
    rewrite IH by done. by rewrite Permutation_middle.
Qed.

(** Grouping loses and repeats nothing. *)
Lemma grouped_perm (faqs : list FAQ) : concat (grouped faqs).*2 ≡ₚ faqs.
Proof.
  induction faqs as [|q faqs IH] using rev_ind; [done|].
  rewrite grouped_snoc.
  destruct (decide (section q ∈ section <$> faqs)) as [Hin|Hin].
  - rewrite alter_own_concat, IH; [apply Permutation_cons_append|].
    by rewrite grouped_keys, elem_of_first_seen.
  - rewrite fmap_app, concat_app, IH. done.
Qed.

End Organize.

Section FAQ.
Context `{Format} `{Collation}.

Lemma fold_left_append {A : Type} (a b : A -> jsstring) (l : list A)
    (out : jsstring) :
  fold_left (fun out x => (out ++ a x) ++ b x) l out
  = out ++ concat ((fun x => a x ++ b x) <$> l).
Proof.
  revert out. induction l as [|x l IH]; intros out; csimpl.
  - by rewrite app_nil_r.
  - by rewrite IH, <- !(assoc (++)).
Qed.

Lemma renderSections_concat (sections : object (list FAQ))
    (linkableTerms : LinkableTerms) :
  renderSections sections linkableTerms
  = concat ((fun kv => sectionTitle kv.1 ++ renderFAQs kv.2 linkableTerms)
              <$> for_in sections).
Proof.
  unfold renderSections.
  by rewrite (fold_left_append (fun kv => sectionTitle kv.1)
                (fun kv => renderFAQs kv.2 linkableTerms)).
Qed.

(** [organizeFAQ] on questions none of which names a property of
    [Object.prototype]: the sections where first seen, the questions of
    each sorted. *)
Lemma organizeFAQ_returns (faqs : list FAQ) :
  Forall (fun q => section q ∉ object_prototype_names) faqs ->
  organizeFAQ faqs
  = Returned ((fun name =>
                 (name, sort by_order (filter (fun q => section q = name) faqs)))
                <$> first_seen (section <$> faqs)).
Proof.
  intros Hall. rewrite organizeFAQ_grouped, decide_True by done.
  unfold grouped. by rewrite <- list_fmap_compose.
Qed.

Lemma organizeFAQ_throws (faqs : list FAQ) :
  Exists (fun q => section q ∈ object_prototype_names) faqs ->
  organizeFAQ faqs = TypeError.
Proof.
  intros Hex. rewrite organizeFAQ_grouped, decide_False; [done|].
  intros Hall. apply Exists_exists in Hex as (q & Hq & Hin).
  rewrite Forall_forall in Hall. by apply (Hall q).
Qed.

(** Without a name of [Object.prototype] among the sections, every
    question is in the group of its section and in no other, and the FAQ
    partial has one pair for each. *)
Lemma organizeFAQ_partition (faqs : list FAQ) (linkableTerms : LinkableTerms) :
  Forall (fun q => section q ∉ object_prototype_names) faqs ->
  exists sections,
    organizeFAQ faqs = Returned sections
    /\ NoDup sections.*1
    /\ (forall name arr q, (name, arr) ∈ sections -> q ∈ arr -> section q = name)
    /\ concat sections.*2 ≡ₚ faqs
    /\ exists visits,
         visits ≡ₚ sections
         /\ renderSections sections linkableTerms
            = concat ((fun kv =>
                         sectionTitle kv.1
                         ++ lit "<dl class=" ++ dq ++ lit "definition-list" ++ dq
                         ++ lit ">" ++ nl
                         ++ concat ((fun q => renderFAQ q linkableTerms) <$> kv.2)
                         ++ lit "</dl>" ++ nl) <$> visits).
Proof.
  intros Hall. eexists. split; [by apply organizeFAQ_returns|].
  split; [|split; [|split]].
  - rewrite keys_fmap. apply NoDup_first_seen.
  - intros name arr q (name' & [= -> ->] & _)%list_elem_of_fmap Hq.
    rewrite sort_perm in Hq. by apply list_elem_of_filter in Hq as [? _].
  - rewrite <- (grouped_perm faqs) at 2. unfold grouped.
    rewrite <- !list_fmap_compose.
    generalize (first_seen (section <$> faqs)). intros names.
    induction names as [|name names IH]; [done|].
    csimpl. by rewrite sort_perm, IH.
  - eexists. split; [apply for_in_perm|].
    by rewrite renderSections_concat.
Qed.

(** The order of the sections in the FAQ partial, whatever their names:
    those named by an array index first, in ascending order, then the
    others where first seen. *)
Lemma faq_sections_order (faqs : list FAQ) (linkableTerms : LinkableTerms) :
  Forall (fun q => section q ∉ object_prototype_names) faqs ->
  let names := first_seen (section <$> faqs) in
  exists sections,
    organizeFAQ faqs = Returned sections
    /\ renderSections sections linkableTerms
       = concat ((fun name =>
                    sectionTitle name
                    ++ renderFAQs
                         (sort by_order (filter (fun q => section q = name) faqs))
                         linkableTerms)
                   <$> (sort (fun a b => index_value a - index_value b)
                             (filter (fun k => is_Some (array_index k)) names)
                        ++ filter (fun k => array_index k = None) names)).
Proof.
  intros Hproto names. eexists. split; [by apply organizeFAQ_returns|].
  rewrite renderSections_concat.
  rewrite (for_in_fmap
             (fun name => sort by_order (filter (fun q => section q = name) faqs))).
  by rewrite <- list_fmap_compose.
Qed.

(** C4, as the code has it.  For questions whose sections are neither
    array indices nor names of [Object.prototype], the FAQ partial has
    the sections in the order in which each is first seen, and in each
    section its questions by ascending [order], those of equal [order]
    as they are in the input. *)
Theorem faq_sections_first_seen_entries_by_order
    (faqs : list FAQ) (linkableTerms : LinkableTerms) :
  Forall (fun q => section q ∉ object_prototype_names) faqs ->
  Forall (fun q => array_index (section q) = None) faqs ->
  let of_section name := filter (fun q => section q = name) faqs in
  exists entries : jsstring -> list FAQ,
    (exists sections,
       organizeFAQ faqs = Returned sections
       /\ renderSections sections linkableTerms
          = concat ((fun name =>
                       sectionTitle name ++ renderFAQs (entries name) linkableTerms)
                      <$> first_seen (section <$> faqs)))
    /\ forall name,
         StronglySorted (fun a b => order a <= order b) (entries name)
         /\ forall x,
              filter (fun q => order q = order x) (entries name)
              = filter (fun q => order q = order x) (of_section name).
Proof.
  intros Hproto Hindex of_section.
  exists (fun name => sort by_order (of_section name)). split.
  - eexists. split; [by apply organizeFAQ_returns|].
    rewrite renderSections_concat, for_in_creation_order.
    + by rewrite <- list_fmap_compose.
    + rewrite <- list_fmap_compose. apply Forall_fmap, Forall_forall.
      intros name (q & -> & Hq)%elem_of_first_seen%list_elem_of_fmap. cbn.
      rewrite Forall_forall in Hindex. by apply Hindex.
  - intros name. split.
    + eapply StronglySorted_weaken;
        [|apply (sort_sorted _ by_order_consistent)].
      unfold before, by_order. intros a b. lia.
    + intros x.
      pose proof (sort_tied _ by_order_consistent x (of_section name)) as Ht.
      rewrite (list_filter_iff _ (tied by_order x) (sort by_order (of_section name))),
              (list_filter_iff _ (tied by_order x) (of_section name)); [done|..];
        intros q; unfold tied, by_order; lia.
Qed.

(** C6, as the code has it.  In the FAQ partial every section is
    introduced by the HTML heading
    [<h3 class="faq-section-title">title</h3>], the title with its curly
    quotes stripped, and followed by a [<dl class="definition-list">]
    block that holds one [<dt>]/[<dd>] pair for each entry of the
    section. *)
Theorem faq_section_html_heading_then_list
    (sections : object (list FAQ)) (linkableTerms : LinkableTerms) :
  renderSections sections linkableTerms
  = concat ((fun kv =>
               lit "<h3 class=" ++ dq ++ lit "faq-section-title" ++ dq ++ lit ">"
               ++ stripCurlyQuotes kv.1 ++ lit "</h3>" ++ nl
               ++ lit "<dl class=" ++ dq ++ lit "definition-list" ++ dq ++ lit ">"
               ++ nl
               ++ concat ((fun faq => renderFAQ faq linkableTerms) <$> kv.2)
               ++ lit "</dl>" ++ nl) <$> for_in sections)
  /\ forall faq,
       renderFAQ faq linkableTerms
       = lit "<dt data-displayed-on='dao-glossary'>"
         ++ stripCurlyQuotes (question faq) ++ lit "</dt>" ++ nl
         ++ lit "<dd data-displayed-on='dao-glossary'>"
         ++ stripCurlyQuotes (renderedAnswer faq linkableTerms)
         ++ lit "</dd>" ++ nl.
Proof.
  split.
  - rewrite renderSections_concat. f_equal.
    apply list_fmap_ext. intros i kv _.
    unfold sectionTitle, renderFAQs, join. by rewrite <- !(assoc (++)).
  - intros faq. unfold renderFAQ. cbv zeta. by rewrite app_nil_l, <- !(assoc (++)).
Qed.

(** C8. The answer of an entry is rendered by the block renderer when
    the entry has blocks, and from its rich-text answer when it has
    none. *)
Theorem renderFAQ_answer_from_blocks_or_rich_text
    (faq : FAQ) (linkableTerms : LinkableTerms) :
  let dd rendered :=
    lit "<dt data-displayed-on='dao-glossary'>"
    ++ stripCurlyQuotes (question faq) ++ lit "</dt>" ++ nl
    ++ lit "<dd data-displayed-on='dao-glossary'>"
    ++ stripCurlyQuotes rendered ++ lit "</dd>" ++ nl in
  (blocks faq <> [] ->
   renderFAQ faq linkableTerms = dd (renderBlocks (blocks faq) linkableTerms))
  /\ (blocks faq = [] ->
      renderFAQ faq linkableTerms = dd (renderRichTexts (answer faq) linkableTerms)).
Proof.
  intros dd. unfold dd, renderFAQ, renderedAnswer. cbv zeta.
  rewrite app_nil_l, <- !(assoc (++)).
  split; intros Hb.
  - rewrite bool_decide_eq_true_2; [done|].
    destruct (blocks faq); [done|cbn; lia].
  - rewrite Hb. done.
Qed.

(** C9, at the input that shows the defect.  A question whose section
    is named [constructor] is never grouped: [sections[question.section]]
    finds the function [Object] in the prototype, so no array is created
    and the call of [push] throws. *)
Theorem organizeFAQ_throws_on_constructor (q : FAQ)
    (governanceProject : Project) (definitions : list Definition_) :
  let faq := {| section := lit "constructor"; order := order q;
                question := question q; answer := answer q;
                blocks := blocks q |} in
  organizeFAQ [faq] = TypeError
  /\ main governanceProject [faq] definitions = TypeError.
Proof.
  intros faq.
  assert (organizeFAQ [faq] = TypeError) as Hthrows.
  { apply organizeFAQ_throws. apply Exists_cons_hd. cbn.
    apply (bool_decide_unpack _). by vm_compute. }
  split; [done|]. unfold main. by rewrite Hthrows.
Qed.

End FAQ.

(** * The table of linkable terms *)

Section Table.
Context `{Format} `{Collation}.

Lemma tbind_value {A B} (m : Traced A) (f : A -> Traced B) :
  (tbind m f).1 = (f m.1).1.
Proof. unfold tbind. by destruct (f m.1). Qed.

Lemma tbind_trace {A B} (m : Traced A) (f : A -> Traced B) :
  (tbind m f).2 = m.2 ++ (f m.1).2.
Proof. unfold tbind. by destruct (f m.1). Qed.

Lemma tmap_value {A B} (f : A -> Traced B) (l : list A) :
  (tmap f l).1 = (fun a => (f a).1) <$> l.
Proof.
  induction l as [|a l IH]; [done|].
  cbn [tmap]. by rewrite !tbind_value, fmap_cons, <- IH.
Qed.

Lemma tmap_reads_only {A B} (f : A -> Traced B) (l : list A) tbl :
  (forall a, reads_only tbl (f a).2) -> reads_only tbl (tmap f l).2.
Proof.
  intros Hf. induction l as [|a l IH]; [constructor|].
  cbn [tmap]. rewrite !tbind_trace. cbn [tret snd]. rewrite app_nil_r.
  apply Forall_app. split; [apply Hf|apply IH].
Qed.

(** ** The functions with a trace return what those without return *)

Lemma renderDefinitionT_value def tbl :
  (renderDefinitionT def tbl).1 = renderDefinition def tbl.
Proof. reflexivity. Qed.

Lemma formatDefinitionsT_value definitions tbl :
  (formatDefinitionsT definitions tbl).1 = formatDefinitions definitions tbl.
Proof.
  unfold formatDefinitionsT, formatDefinitions.
  rewrite tbind_value. cbn [tret fst]. by rewrite tmap_value.
Qed.

Lemma renderFAQT_value faq tbl : (renderFAQT faq tbl).1 = renderFAQ faq tbl.
Proof.
  unfold renderFAQT, renderFAQ, renderedAnswerT, renderedAnswer.
  rewrite !tbind_value. cbn [tret fst consult].
  by destruct (bool_decide _).
Qed.

Lemma renderFAQsT_value faqs tbl : (renderFAQsT faqs tbl).1 = renderFAQs faqs tbl.
Proof.
  unfold renderFAQsT, renderFAQs. rewrite tbind_value. cbn [tret fst].
  rewrite tmap_value.
  rewrite (list_fmap_ext _ (fun faq => renderFAQ faq tbl)); [done|].
  intros i faq _. apply renderFAQT_value.
Qed.

Lemma renderSectionsT_value sections tbl :
  (renderSectionsT sections tbl).1 = renderSections sections tbl.
Proof.
  unfold renderSectionsT, renderSections.
  generalize (for_in sections), (@nil Z). intros visits.
  induction visits as [|kv visits IH]; intros out; [done|].
  cbn [renderSectionsLoopT fold_left].
  by rewrite tbind_value, IH, renderFAQsT_value.
Qed.

Lemma buildLinkableTermsT_value governanceProject definitions tbl :
  (buildLinkableTermsT governanceProject definitions tbl).1
  = buildLinkableTerms governanceProject definitions tbl.
Proof.
  revert tbl. induction definitions as [|d definitions IH]; intros tbl; [done|].
  cbn [buildLinkableTermsT]. rewrite !tbind_value. by rewrite IH.
Qed.

Lemma mainT_value governanceProject faqs definitions :
  (mainT governanceProject faqs definitions).1
  = main governanceProject faqs definitions.
Proof.
  unfold mainT, main, composeT.
  rewrite tbind_value, buildLinkableTermsT_value.
  destruct (organizeFAQ faqs) as [sections|]; [|done].
  rewrite !tbind_value. cbn [tret fst].
  by rewrite formatDefinitionsT_value, renderSectionsT_value.
Qed.

(** ** What each function does with the table *)

Lemma renderDefinitionT_reads_only def tbl :
  reads_only tbl (renderDefinitionT def tbl).2.
Proof. repeat constructor; by eexists. Qed.

Lemma formatDefinitionsT_reads_only definitions tbl :
  reads_only tbl (formatDefinitionsT definitions tbl).2.
Proof.
  unfold formatDefinitionsT. rewrite tbind_trace. cbn [tret snd].
  rewrite app_nil_r.
  apply (tmap_reads_only (fun def => renderDefinitionT def tbl)).
  intros def. apply renderDefinitionT_reads_only.
Qed.

Lemma renderFAQT_reads_only faq tbl : reads_only tbl (renderFAQT faq tbl).2.
Proof.
  unfold renderFAQT, renderedAnswerT. rewrite !tbind_trace.
  cbn [tret snd consult fst]. rewrite app_nil_r.
  destruct (bool_decide _); repeat constructor; by eexists.
Qed.

Lemma renderFAQsT_reads_only faqs tbl : reads_only tbl (renderFAQsT faqs tbl).2.
Proof.
  unfold renderFAQsT. rewrite tbind_trace. cbn [tret snd].
  rewrite app_nil_r.
  apply (tmap_reads_only (fun faq => renderFAQT faq tbl)).
  intros faq. apply renderFAQT_reads_only.
Qed.

Lemma renderSectionsT_reads_only sections tbl :
  reads_only tbl (renderSectionsT sections tbl).2.
Proof.
  unfold renderSectionsT.
  generalize (for_in sections), (@nil Z). intros visits.
  induction visits as [|kv visits IH]; intros out; [constructor|].
  cbn [renderSectionsLoopT]. rewrite tbind_trace.
  apply Forall_app. split; [apply renderFAQsT_reads_only|apply IH].
Qed.

Lemma composeT_reads_only governanceProject faqs definitions tbl :
  reads_only tbl (composeT governanceProject faqs definitions tbl).2.
Proof.
  unfold composeT. destruct (organizeFAQ faqs) as [sections|]; [|constructor].
  rewrite !tbind_trace. cbn [tret snd]. rewrite app_nil_r.
  apply Forall_app. split;
    [apply renderSectionsT_reads_only|apply formatDefinitionsT_reads_only].
Qed.

(** The loop of [main]: the turn of the [i]-th definition renders its
    term twice against the table of the definitions before it, then
    assigns its entry. *)
Lemma buildLinkableTermsT_trace governanceProject definitions tbl :
  (buildLinkableTermsT governanceProject definitions tbl).2
  = concat (imap (fun i d =>
                    let seen :=
                      buildLinkableTerms governanceProject (take i definitions) tbl in
                    [ Consult RenderRichTexts seen;
                      Consult FormatGlossaryTermKey seen;
                      Assign (pageId d) ])
                 definitions).
Proof.
  revert tbl. induction definitions as [|d definitions IH]; intros tbl; [done|].
  cbn [buildLinkableTermsT]. rewrite !tbind_trace.
  cbn [consult assign fst snd]. rewrite IH. cbn [imap concat app].
  do 4 f_equal.
Qed.

End Table.

Section TableOrder.
Context `{Format} `{Collation}.

(** C2, as the code has it.  The accesses of [main] to the table are
    those of the loop over the definitions followed by those of the
    composers.  In the loop, the term of each definition is rendered,
    and its key formatted, against the table that holds the entries of
    the definitions before it only; the entry is assigned after that.
    After the loop nothing is assigned, and every call is passed the
    table that the whole loop has built. *)
Theorem table_read_while_built_then_only_read
    (governanceProject : Project) (faqs : list FAQ)
    (definitions : list Definition_) :
  let built n :=
    buildLinkableTerms governanceProject (take n definitions) lt_empty in
  exists loop composers : list Event,
    (mainT governanceProject faqs definitions).2 = loop ++ composers
    /\ loop
       = concat (imap (fun i d =>
                         [ Consult RenderRichTexts (built i);
                           Consult FormatGlossaryTermKey (built i);
                           Assign (pageId d) ])
                      definitions)
    /\ Forall (fun e =>
                 exists callee, e = Consult callee (built (length definitions)))
              composers
    /\ (mainT governanceProject faqs definitions).1
       = main governanceProject faqs definitions.
Proof.
  intros built. unfold mainT. rewrite tbind_trace.
  eexists _, _. split; [reflexivity|].
  split; [apply buildLinkableTermsT_trace|].
  split; [|apply mainT_value].
  unfold built. rewrite firstn_all, buildLinkableTermsT_value.
  apply composeT_reads_only.
Qed.

End TableOrder.

(** * Determinism *)

Section Determinism.
Context `{Format} `{Collation}.





End Determinism.

Section Hosts.
Context `{Format} (host1 host2 : Collation).

(** The FAQ partial does not depend on the host, and two hosts throw on
    the same questions. *)
Lemma faq_partial_on_every_host (governanceProject : Project) (faqs : list FAQ)
    (definitions : list Definition_) :
  match @main _ _ host1 governanceProject faqs definitions,
        @main _ _ host2 governanceProject faqs definitions with
  | Returned parts1, Returned parts2 => faq_partial parts1 = faq_partial parts2
  | TypeError, TypeError => True
  | _, _ => False
  end.
Proof. unfold main. by destruct (organizeFAQ faqs). Qed.



End Hosts.



(** * Examples *)

Section SampleCollation.
Import Sample.

Lemma compare_folded_refl (a : jsstring) : compare_folded a a = 0.
Proof. induction a as [|x a IH]; [done|]. cbn. by rewrite Z.eqb_refl. Qed.

Lemma compare_folded_sign (a b : jsstring) :
  compare_folded a b < 0 <-> 0 < compare_folded b a.
Proof.
  revert b. induction a as [|x a IH]; intros [|y b]; cbn; try lia.
  destruct (Z.eqb_spec (fold_case x) (fold_case y)),
           (Z.eqb_spec (fold_case y) (fold_case x)); try lia.
  apply IH.
Qed.

Lemma compare_folded_trans (a b c : jsstring) :
  compare_folded a b <= 0 -> compare_folded b c <= 0 -> compare_folded a c <= 0.
Proof.
  revert b c. induction a as [|x a IH]; intros [|y b] [|z c]; cbn; try lia.
  destruct (Z.eqb_spec (fold_case x) (fold_case y)),
           (Z.eqb_spec (fold_case y) (fold_case z)),
           (Z.eqb_spec (fold_case x) (fold_case z)); try lia.
  apply IH.
Qed.

Lemma compare_folded_consistent : Consistent compare_folded.
Proof.
  split; [apply compare_folded_refl|apply compare_folded_sign
         |apply compare_folded_trans].
Qed.

Lemma collation_consistent : Consistent (@localeCompare Sample.collation).
Proof. exact compare_folded_consistent. Qed.

Lemma compare_units_consistent : Consistent compare_units.
Proof.
  split.
  - intros a. induction a as [|x a IH]; [done|]. cbn. by rewrite Z.eqb_refl.
  - intros a. induction a as [|x a IH]; intros [|y b]; cbn; try lia.
    destruct (Z.eqb_spec x y), (Z.eqb_spec y x); try lia. apply IH.
  - intros a. induction a as [|x a IH]; intros [|y b] [|z c]; cbn; try lia.
    destruct (Z.eqb_spec x y), (Z.eqb_spec y z), (Z.eqb_spec x z); try lia.
    apply IH.
Qed.

Lemma lower_first_consistent : Consistent (@localeCompare Sample.lower_first).
Proof.
  apply (Consistent_lex compare_folded (fun a b => compare_units b a)).
  - exact compare_folded_consistent.
  - apply Consistent_flip, compare_units_consistent.
Qed.


End SampleCollation.

Section Examples.
Import Sample.
#[local] Existing Instance Sample.types.
#[local] Existing Instance Sample.format.
#[local] Existing Instance Sample.collation.

(** The two partials of the sample: [Voting] comes first, its entry of
    order 1 before that of order 2, then [Rewards]; the draft is left out
    of the glossary. *)
Example main_sample : main governance faqs definitions = Returned partials.
Proof. vm_compute. reflexivity. Qed.

Lemma glossary_holds_valid_definitions_once_witness :
  NoDup (pageId <$> definitions)
  /\ main governance faqs definitions = Returned partials
  /\ exists ds : list Definition_,
       glossary_partial partials
       = glossaryOpen
         ++ join ((fun def =>
                     glossaryEntry
                       (renderDefinition def
                          (buildLinkableTerms governance definitions lt_empty)))
                    <$> ds)
         ++ glossaryClose
       /\ NoDup ds
       /\ forall def,
            def ∈ ds
            <-> def ∈ definitions
                /\ validDefinitionToPublish def governance = Valid.
Proof.
  assert (NoDup (pageId <$> definitions)) as Hnd.
  { apply (bool_decide_unpack _). vm_compute. exact I. }
  assert (main governance faqs definitions = Returned partials) as Hmain.
  { vm_compute. reflexivity. }
  split; [exact Hnd|]. split; [exact Hmain|].
  exact (glossary_holds_valid_definitions_once
           governance faqs definitions partials Hnd Hmain).
Defined.

Lemma glossary_in_localeCompare_order_stable_witness :
  Consistent (@localeCompare lower_first)
  /\ exists ds : list Definition_,
       @formatDefinitions _ _ lower_first
         (publishedDefinitions governance definitions) lt_empty
       = lit "<div class=" ++ dq ++ lit "hidden-glossary" ++ dq ++ lit ">" ++ nl ++ nl
         ++ concat ((fun def =>
                       lit "### " ++ rd_term (renderDefinition def lt_empty)
                       ++ lit " {#" ++ rd_key (renderDefinition def lt_empty)
                       ++ lit "}" ++ nl
                       ++ rd_definition (renderDefinition def lt_empty) ++ nl ++ nl)
                      <$> ds)
         ++ nl ++ lit "</div>" ++ nl
       /\ ds ≡ₚ publishedDefinitions governance definitions
       /\ StronglySorted
            (fun a b =>
               @localeCompare lower_first
                 (rd_term (renderDefinition a lt_empty))
                 (rd_term (renderDefinition b lt_empty)) <= 0) ds.
Proof.
  split; [exact lower_first_consistent|].
  destruct (@glossary_in_localeCompare_order_stable _ _ lower_first
              governance definitions lt_empty lower_first_consistent)
    as (ds & Hout & Hperm & Hsorted & _).
  exists ds. split; [exact Hout|]. split; [exact Hperm|exact Hsorted].
Defined.

(** C3 as it is stated fails.  [Quorum] and [quorum] are equal when case
    is ignored, and [Quorum] is fetched first; on a host whose collation
    puts lower case first the glossary has [quorum] first, which is not
    the stable sort of the fetched order by a comparison that ignores
    case. *)
Lemma glossary_case_variants_not_in_fetch_order :
  let fetched := [quorum_upper; quorum_lower] in
  let ignoring_case a b :=
    compare_folded (rd_term (renderDefinition a lt_empty))
                   (rd_term (renderDefinition b lt_empty)) in
  publishedDefinitions governance fetched = fetched
  /\ ignoring_case quorum_upper quorum_lower = 0
  /\ @formatDefinitions _ _ lower_first fetched lt_empty
     = lit "<div class=" ++ dq ++ lit "hidden-glossary" ++ dq ++ lit ">" ++ nl ++ nl
       ++ lit "### quorum {#quorum}" ++ nl ++ lit "See Quorum." ++ nl ++ nl
       ++ lit "### Quorum {#Quorum}" ++ nl
       ++ lit "The votes a proposal needs." ++ nl ++ nl
       ++ nl ++ lit "</div>" ++ nl
  /\ ~ exists ds,
         stable_sort_of ignoring_case fetched ds
         /\ @formatDefinitions _ _ lower_first fetched lt_empty
            = glossaryOpen
              ++ join ((fun def => glossaryEntry (renderDefinition def lt_empty))
                         <$> ds)
              ++ glossaryClose.
Proof.
  intros fetched ignoring_case.
  split; [by vm_compute|]. split; [by vm_compute|]. split; [by vm_compute|].
  intros (ds & Hs & Hout).
  assert (Consistent ignoring_case) as Hc.
  { apply (Consistent_on (fun d => rd_term (renderDefinition d lt_empty))
                         compare_folded compare_folded_consistent). }
  apply (stable_sort_of_unique _ Hc) in Hs. subst ds.
  vm_compute in Hout. discriminate Hout.
Qed.

Lemma renderDefinition_keeps_ampersand_witness :
  renderRichTexts (term research) lt_empty = lit "R&D"
  /\ rd_term (renderDefinition research lt_empty) = lit "R&D"
  /\ ~ Forall (fun c => term_character c = true)
              (rd_term (renderDefinition research lt_empty)).
Proof.
  split; [reflexivity|].
  apply (renderDefinition_keeps_ampersand research lt_empty). reflexivity.
Defined.

Lemma faq_sections_first_seen_entries_by_order_witness :
  Forall (fun q => section q ∉ object_prototype_names) faqs
  /\ Forall (fun q => array_index (section q) = None) faqs
  /\ exists entries : jsstring -> list FAQ,
       (exists sections,
          organizeFAQ faqs = Returned sections
          /\ renderSections sections lt_empty
             = concat ((fun name =>
                          sectionTitle name ++ renderFAQs (entries name) lt_empty)
                         <$> first_seen (section <$> faqs)))
       /\ forall name,
            StronglySorted (fun a b => order a <= order b) (entries name)
            /\ forall x,
                 filter (fun q => order q = order x) (entries name)
                 = filter (fun q => order q = order x)
                          (filter (fun q => section q = name) faqs).
Proof.
  assert (Forall (fun q => section q ∉ object_prototype_names) faqs) as Hproto.
  { apply (bool_decide_unpack _). vm_compute. exact I. }
  assert (Forall (fun q => array_index (section q) = None) faqs) as Hindex.
  { apply (bool_decide_unpack _). vm_compute. exact I. }
  split; [exact Hproto|]. split; [exact Hindex|].
  exact (faq_sections_first_seen_entries_by_order faqs lt_empty Hproto Hindex).
Defined.

Lemma renderFAQ_answer_from_blocks_or_rich_text_witness :
  blocks who_votes <> [] /\ blocks how_to_vote = []
  /\ renderFAQ who_votes lt_empty
     = lit "<dt data-displayed-on='dao-glossary'>Who votes?</dt>" ++ nl
       ++ lit "<dd data-displayed-on='dao-glossary'>"
       ++ stripCurlyQuotes (renderBlocks (blocks who_votes) lt_empty)
       ++ lit "</dd>" ++ nl
  /\ renderFAQ how_to_vote lt_empty
     = lit "<dt data-displayed-on='dao-glossary'>How do I vote?</dt>" ++ nl
       ++ lit "<dd data-displayed-on='dao-glossary'>"
       ++ stripCurlyQuotes (renderRichTexts (answer how_to_vote) lt_empty)
       ++ lit "</dd>" ++ nl.
Proof.
  assert (blocks who_votes <> []) as Hsome by discriminate.
  assert (blocks how_to_vote = []) as Hnone by reflexivity.
  split; [exact Hsome|]. split; [exact Hnone|]. split.
  - exact (proj1 (renderFAQ_answer_from_blocks_or_rich_text who_votes lt_empty) Hsome).
  - exact (proj2 (renderFAQ_answer_from_blocks_or_rich_text how_to_vote lt_empty)
                 Hnone).
Defined.



(** C2 as it is stated fails: the first access to the table is a call of
    [renderRichTexts] that is passed the empty table, two places before
    the first assignment. *)
Lemma table_consulted_before_built :
  (mainT governance faqs definitions).2 !! 0%nat
  = Some (Consult RenderRichTexts lt_empty)
  /\ (mainT governance faqs definitions).2 !! 2%nat = Some (Assign (lit "p1"))
  /\ ~ built_before_read (mainT governance faqs definitions).2.
Proof.
  assert ((mainT governance faqs definitions).2 !! 0%nat
          = Some (Consult RenderRichTexts lt_empty)) as Hcall by reflexivity.
  assert ((mainT governance faqs definitions).2 !! 2%nat
          = Some (Assign (lit "p1"))) as Hassign by reflexivity.
  split; [exact Hcall|]. split; [exact Hassign|].
  intros Hclaim. specialize (Hclaim _ _ _ _ _ Hcall Hassign). lia.
Qed.

(** C4 as it is stated fails: a section named [1], first seen after the
    section [b], comes before it in the FAQ partial. *)
Lemma faq_numbered_section_comes_first :
  let of_section name := filter (fun q => section q = name) [lettered; numbered] in
  exists sections,
    organizeFAQ [lettered; numbered] = Returned sections
    /\ first_seen (section <$> [lettered; numbered]) = [lit "b"; lit "1"]
    /\ (for_in sections).*1 = [lit "1"; lit "b"]
    /\ renderSections sections lt_empty
       <> concat ((fun name =>
                     sectionTitle name
                     ++ renderFAQs (sort by_order (of_section name)) lt_empty)
                    <$> first_seen (section <$> [lettered; numbered])).
Proof.
  intros of_section. eexists. split; [by vm_compute|].
  split; [by vm_compute|]. split; [by vm_compute|].
  vm_compute. discriminate.
Qed.

(** C6 as it is stated fails: the FAQ partial of the sample does not
    begin with the markdown heading of its first section. *)
Lemma faq_heading_not_markdown :
  main governance faqs definitions = Returned partials
  /\ first_seen (section <$> faqs) = [lit "Voting"; lit "Rewards"]
  /\ ~ exists rest,
         faq_partial partials = markdownHeading (lit "Voting") ++ rest.
Proof.
  split; [exact main_sample|]. split; [by vm_compute|].
  intros [rest Hrest]. vm_compute in Hrest. discriminate Hrest.
Qed.

End Examples.

(** * Further properties of the script *)

(** ** The term of a glossary heading *)



(** X2. No character of markdown or HTML markup is left in the term of
    a heading: no [#], [<], [>], square bracket, brace, [*], [_], backquote
    or double quote, whatever [renderRichTexts] returned. *)
Theorem renderDefinition_term_without_markup `{Format}
    (def : Definition_) (linkableTerms : LinkableTerms) :
  Forall (fun c => c ∉ [34; 35; 42; 60; 62; 91; 93; 95; 96; 123; 125])
         (rd_term (renderDefinition def linkableTerms)).
Proof.
  unfold renderDefinition. cbn [rd_term].
  apply Forall_forall. intros c Hc.
  apply list_elem_of_In in Hc. unfold formatTerm in Hc.
  apply filter_In in Hc as [_ Hc].
  apply class_member_characters in Hc.
  intros Hin. repeat (apply elem_of_cons in Hin as [->|Hin]);
    try (by apply elem_of_nil in Hin);
    destruct Hc as [Hc|Hc]; try lia; by vm_compute in Hc.
Qed.

(** X3. Formatting a term a second time changes nothing, and the term
    of a concatenation is the concatenation of the terms. *)
Theorem formatTerm_idempotent_and_additive (s t : jsstring) :
  formatTerm (formatTerm t) = formatTerm t
  /\ formatTerm (s ++ t) = formatTerm s ++ formatTerm t.
Proof.
  unfold formatTerm. split; [|apply List.filter_app].
  induction t as [|c t IH]; [done|].
  cbn. destruct (class_member c) eqn:Hc; [|done].
  cbn. by rewrite Hc, IH.
Qed.

(** ** The order of the glossary *)

Section SortOrder.
Context {A : Type} (cmp : A -> A -> Z).
Hypothesis consistent : Consistent cmp.

(** A list in order is its own sort. *)
Lemma sort_of_sorted (l : list A) :
  StronglySorted (before cmp) l -> sort cmp l = l.
Proof.
  intros Hs. symmetry. apply (stable_sort_of_unique cmp consistent).
  by split.
Qed.

Lemma filter_at_most_one (P : A -> Prop) `{forall x, Decision (P x)} (l : list A) :
  NoDup l ->
  (forall x y, x ∈ l -> y ∈ l -> P x -> P y -> x = y) ->
  (length (filter P l) <= 1)%nat.
Proof.
  intros Hnd Hone.
  pose proof (NoDup_filter P l Hnd) as Hnd'.
  destruct (filter P l) as [|a [|b k]] eqn:Hf; cbn; [lia..|].
  assert (a ∈ filter P l /\ b ∈ filter P l) as [Ha Hb].
  { rewrite Hf. split; [left|right; left]. }
  apply list_elem_of_filter in Ha as [HPa Ha], Hb as [HPb Hb].
  assert (a = b) as -> by (by apply Hone).
  apply NoDup_cons in Hnd' as [Hnotin _]. destruct Hnotin. left.
Qed.

(** Values none of which ties with another are sorted to the same list
    from every order. *)
Lemma sort_permutation_no_ties (l1 l2 : list A) :
  l1 ≡ₚ l2 ->
  NoDup l1 ->
  (forall x y, x ∈ l1 -> y ∈ l1 -> cmp x y = 0 -> x = y) ->
  sort cmp l1 = sort cmp l2.
Proof.
  intros Hp Hnd Hties.
  apply (sorted_tied_unique cmp consistent);
    [by apply sort_sorted..|].
  intros z. rewrite !(sort_tied cmp consistent).
  assert (filter (tied cmp z) l1 ≡ₚ filter (tied cmp z) l2) as Hpf
    by (by rewrite Hp).
  assert (length (filter (tied cmp z) l1) <= 1)%nat as Hlen.
  { apply filter_at_most_one; [done|].
    intros x y Hx Hy Hzx Hzy. apply Hties; [done..|].
    eapply (tied_trans cmp consistent); [|exact Hzy].
    by apply (tied_sym cmp consistent). }
  destruct (filter (tied cmp z) l1) as [|a [|b k]]; cbn in Hlen; [| |lia].
  - by apply Permutation_nil_l in Hpf.
  - by apply Permutation_singleton_l in Hpf.
Qed.

End SortOrder.

Section GlossaryOrder.
Context `{Format} `{Collation}.

(** X4. When no two of the definitions have terms that [localeCompare]
    reports equal, the glossary does not depend on the order in which the
    definitions are given. *)
Theorem formatDefinitions_any_order_without_ties
    (definitions definitions' : list Definition_) (linkableTerms : LinkableTerms) :
  Consistent localeCompare ->
  definitions ≡ₚ definitions' ->
  NoDup definitions ->
  (forall a b,
     a ∈ definitions -> b ∈ definitions ->
     localeCompare (rd_term (renderDefinition a linkableTerms))
                   (rd_term (renderDefinition b linkableTerms)) = 0 ->
     a = b) ->
  formatDefinitions definitions linkableTerms
  = formatDefinitions definitions' linkableTerms.
Proof.
  intros Hc Hp Hnd Hties.
  assert (Consistent (by_rendered_term linkableTerms)) as Hc'.
  { apply (Consistent_on (fun d => rd_term (renderDefinition d linkableTerms))
                         localeCompare Hc). }
  rewrite !formatDefinitions_by_definition.
  by rewrite (sort_permutation_no_ties (by_rendered_term linkableTerms)
                Hc' definitions definitions').
Qed.

(** X5. Definitions given in the order of their terms are emitted in
    the order given: the sort moves nothing, ties included. *)
Theorem formatDefinitions_keeps_sorted_input
    (definitions : list Definition_) (linkableTerms : LinkableTerms) :
  Consistent localeCompare ->
  StronglySorted
    (fun a b =>
       localeCompare (rd_term (renderDefinition a linkableTerms))
                     (rd_term (renderDefinition b linkableTerms)) <= 0)
    definitions ->
  formatDefinitions definitions linkableTerms
  = glossaryOpen
    ++ join ((fun def => glossaryEntry (renderDefinition def linkableTerms))
               <$> definitions)
    ++ glossaryClose.
Proof.
  intros Hc Hs.
  assert (Consistent (by_rendered_term linkableTerms)) as Hc'.
  { apply (Consistent_on (fun d => rd_term (renderDefinition d linkableTerms))
                         localeCompare Hc). }
  rewrite formatDefinitions_by_definition.
  by rewrite (sort_of_sorted (by_rendered_term linkableTerms) Hc').
Qed.

End GlossaryOrder.

(** ** The entries of the table *)

Section TableEntries.
Context `{Format}.

Lemma buildLinkableTerms_app (governanceProject : Project)
    (defs1 defs2 : list Definition_) (tbl : LinkableTerms) :
  buildLinkableTerms governanceProject (defs1 ++ defs2) tbl
  = buildLinkableTerms governanceProject defs2
      (buildLinkableTerms governanceProject defs1 tbl).
Proof. apply fold_left_app. Qed.

Lemma lt_assign_lookup (k k' : jsstring) (e : LinkableTerm) (tbl : LinkableTerms) :
  lt_own (lt_assign k e tbl) !! k'
  = if decide (k = k' /\ k <> lit "__proto__") then Some e else lt_own tbl !! k'.
Proof.
  unfold lt_assign. destruct (decide (k = lit "__proto__")) as [->|Hk]; cbn.
  - rewrite decide_False; [done|tauto].
  - destruct (decide (k = k')) as [->|Hne].
    + rewrite decide_True by done. apply lookup_insert_eq.
    + rewrite decide_False by tauto. by apply lookup_insert_ne.
Qed.

(** Definitions with other page identifiers leave an entry as it is. *)
Lemma buildLinkableTerms_other (governanceProject : Project)
    (definitions : list Definition_) (tbl : LinkableTerms) (k : jsstring) :
  k ∉ pageId <$> definitions ->
  lt_own (buildLinkableTerms governanceProject definitions tbl) !! k
  = lt_own tbl !! k.
Proof.
  revert tbl. induction definitions as [|d definitions IH]; intros tbl Hk; [done|].
  rewrite fmap_cons, not_elem_of_cons in Hk. destruct Hk as [Hne Hk].
  cbn [buildLinkableTerms fold_left]. fold (buildLinkableTerms governanceProject).
  unfold buildLinkableTerms in IH |- *. rewrite IH by done.
  rewrite lt_assign_lookup. rewrite decide_False; [done|].
  intros [Heq _]. by apply Hne.
Qed.

Lemma lt_assign_proto (k : jsstring) (e : LinkableTerm) (tbl : LinkableTerms) :
  lt_proto (lt_assign k e tbl)
  = if decide (k = lit "__proto__") then Some e else lt_proto tbl.
Proof. unfold lt_assign. by destruct (decide (k = lit "__proto__")). Qed.

(** X6. The own properties of the table after the loop of [main]: the
    table owns a key exactly when the key is the page identifier of a
    fetched definition and is not [__proto__].  The prototype of the
    table, where a read of any other key continues, is replaced by an
    entry exactly when some fetched page identifier is [__proto__];
    otherwise it stays [Object.prototype]. *)
Theorem linkableTerms_own_keys_and_prototype (governanceProject : Project)
    (definitions : list Definition_) :
  let tbl := buildLinkableTerms governanceProject definitions lt_empty in
  (forall k,
     is_Some (lt_own tbl !! k)
     <-> k ∈ pageId <$> definitions /\ k <> lit "__proto__")
  /\ (is_Some (lt_proto tbl) <-> lit "__proto__" ∈ pageId <$> definitions).
Proof.
  cbv zeta. induction definitions as [|d definitions [IHown IHproto]] using rev_ind.
  - split.
    + intros k. cbn. rewrite lookup_empty, is_Some_alt.
      split; [done|]. by intros [?%elem_of_nil _].
    + cbn. rewrite is_Some_alt. split; [done|]. by intros ?%elem_of_nil.
  - rewrite buildLinkableTerms_app. cbn [buildLinkableTerms fold_left].
    unfold buildLinkableTerms in IHown, IHproto.
    rewrite fmap_app. change (pageId <$> [d]) with [pageId d]. split.
    + intros k. rewrite lt_assign_lookup, elem_of_app, list_elem_of_singleton.
      destruct (decide (pageId d = k /\ pageId d <> lit "__proto__"))
        as [ [Hk Hp] | Hn ].
      * subst k. split; [intros _; tauto|intros _; by eexists].
      * rewrite IHown. split; [tauto|].
        intros [ [Hin | Heq ] Hp]; [done|]. subst k. by destruct Hn.
    + rewrite lt_assign_proto, elem_of_app, list_elem_of_singleton.
      destruct (decide (pageId d = lit "__proto__")) as [Hd|Hd].
      * split; [intros _; by right|intros _; by eexists].
      * rewrite IHproto. split; [tauto|]. intros [?|?]; [done|congruence].
Qed.

Lemma buildLinkableTerms_lookup_last (governanceProject : Project)
    (before_ after : list Definition_) (d : Definition_) :
  pageId d ∉ pageId <$> after ->
  pageId d <> lit "__proto__" ->
  lt_own (buildLinkableTerms governanceProject (before_ ++ d :: after) lt_empty)
    !! pageId d
  = Some (linkableTerm governanceProject d
            (buildLinkableTerms governanceProject before_ lt_empty)).
Proof.
  intros Hafter Hproto.
  rewrite buildLinkableTerms_app.
  change (buildLinkableTerms governanceProject (d :: after) ?t)
    with (buildLinkableTerms governanceProject after
            (lt_assign (pageId d) (linkableTerm governanceProject d t) t)).
  rewrite buildLinkableTerms_other by done.
  rewrite lt_assign_lookup. by rewrite decide_True by done.
Qed.

(** X7. The entry under a page identifier is that of the last fetched
    definition with the identifier, its text and anchor rendered against
    the table of the definitions fetched before it. *)
Theorem linkableTerms_last_definition_wins (governanceProject : Project)
    (before_ after : list Definition_) (d : Definition_) :
  pageId d ∉ pageId <$> after ->
  pageId d <> lit "__proto__" ->
  let seen := buildLinkableTerms governanceProject before_ lt_empty in
  lt_own (buildLinkableTerms governanceProject (before_ ++ d :: after) lt_empty)
    !! pageId d
  = Some {| text := renderRichTexts (term d) seen;
            anchor := formatGlossaryTermKey (term d) seen;
            page := lit "../dao-glossary.md";
            valid := validDefinitionToPublish d governanceProject;
            notionURL := url d |}.
Proof.
  intros Hafter Hproto seen.
  by rewrite buildLinkableTerms_lookup_last.
Qed.

(** X8. Every entry of the table comes from a fetched definition with
    that page identifier: it links to the glossary page, carries the
    classification of the definition and the address of its source. *)
Theorem linkableTerms_entry_of_definition (governanceProject : Project)
    (definitions : list Definition_) (k : jsstring) (e : LinkableTerm) :
  lt_own (buildLinkableTerms governanceProject definitions lt_empty) !! k = Some e ->
  exists d,
    d ∈ definitions
    /\ pageId d = k
    /\ page e = lit "../dao-glossary.md"
    /\ valid e = validDefinitionToPublish d governanceProject
    /\ notionURL e = url d.
Proof.
  revert e. induction definitions as [|d definitions IH] using rev_ind; intros e.
  - cbn. by rewrite lookup_empty.
  - rewrite buildLinkableTerms_app. cbn [buildLinkableTerms fold_left].
    rewrite lt_assign_lookup.
    destruct (decide (pageId d = k /\ pageId d <> lit "__proto__"))
      as [[Hk _]|_].
    + intros [= <-]. exists d. rewrite elem_of_app, list_elem_of_singleton.
      cbn. tauto.
    + intros He. destruct (IH e He) as (d' & Hin & Hrest).
      exists d'. rewrite elem_of_app. tauto.
Qed.

(** X9. With distinct page identifiers, a definition is published in the
    glossary exactly when the entry of the table under its page
    identifier is flagged [Valid]. *)
Theorem published_iff_entry_valid (governanceProject : Project)
    (definitions : list Definition_) (d : Definition_) :
  NoDup (pageId <$> definitions) ->
  d ∈ definitions ->
  pageId d <> lit "__proto__" ->
  d ∈ publishedDefinitions governanceProject definitions
  <-> exists e,
        lt_own (buildLinkableTerms governanceProject definitions lt_empty)
          !! pageId d = Some e
        /\ valid e = Valid.
Proof.
  intros Hnd Hin Hproto.
  apply list_elem_of_split in Hin as (before_ & after & ->).
  assert (pageId d ∉ pageId <$> after) as Hafter.
  { rewrite fmap_app, fmap_cons in Hnd.
    apply NoDup_app in Hnd as (_ & _ & Hnd).
    by apply NoDup_cons in Hnd as [? _]. }
  rewrite (buildLinkableTerms_lookup_last _ _ _ _ Hafter Hproto).
  unfold publishedDefinitions. rewrite list_elem_of_filter.
  rewrite elem_of_app, elem_of_cons. split.
  - intros [Hv _]. eexists. split; [done|]. exact Hv.
  - intros (e & [= <-] & Hv). cbn in Hv. tauto.
Qed.

End TableEntries.

(** ** The sections of the FAQ *)


Lemma length_first_seen (names : list jsstring) :
  (length (first_seen names) <= length names)%nat.
Proof.
  induction names as [|n names IH]; [done|]. cbn.
  pose proof (length_filter (fun m => m <> n) (first_seen names)). lia.
Qed.

Section Sections.
Context `{Format} `{Collation}.

(** What [organizeFAQ] returns, when it returns. *)
Lemma organizeFAQ_Returned_inv (faqs : list FAQ) (sections : object (list FAQ)) :
  organizeFAQ faqs = Returned sections ->
  Forall (fun q => section q ∉ object_prototype_names) faqs
  /\ sections
     = (fun name => (name, sort by_order (filter (fun q => section q = name) faqs)))
         <$> first_seen (section <$> faqs).
Proof.
  rewrite organizeFAQ_grouped.
  destruct (decide (Forall _ faqs)) as [Hall|]; [|done].
  intros [= <-]. split; [done|].
  unfold grouped. by rewrite <- list_fmap_compose.
Qed.

(** X10. [organizeFAQ] throws exactly when the section of some
    question is a property name of [Object.prototype]; on every other
    list of questions it returns. *)
Theorem organizeFAQ_throws_iff_inherited_section (faqs : list FAQ) :
  organizeFAQ faqs = TypeError
  <-> Exists (fun q => section q ∈ object_prototype_names) faqs.
Proof.
  rewrite organizeFAQ_grouped.
  destruct (decide (Forall _ faqs)) as [Hall|Hall].
  - split; [done|]. intros Hex. apply Exists_exists in Hex as (q & Hq & Hin).
    rewrite Forall_forall in Hall. by destruct (Hall q Hq).
  - split; [intros _|done].
    apply not_Forall_Exists in Hall; [|apply _].
    eapply Exists_impl; [exact Hall|]. cbn. intros q Hq.
    by apply dec_stable.
Qed.

(** X11. When [organizeFAQ] returns, its sections have distinct names,
    every question is in the section that bears its name and in that one
    only, and all the sections together hold the questions of the input,
    none lost and none repeated. *)
Theorem organizeFAQ_partitions_questions
    (faqs : list FAQ) (sections : object (list FAQ)) :
  organizeFAQ faqs = Returned sections ->
  NoDup sections.*1
  /\ (forall q, q ∈ faqs -> exists arr, (section q, arr) ∈ sections /\ q ∈ arr)
  /\ (forall name arr q,
        (name, arr) ∈ sections -> q ∈ arr -> section q = name /\ q ∈ faqs)
  /\ concat sections.*2 ≡ₚ faqs.
Proof.
  intros [Hall ->]%organizeFAQ_Returned_inv.
  split; [|split; [|split]].
  - rewrite keys_fmap. apply NoDup_first_seen.
  - intros q Hq. eexists. split.
    + apply list_elem_of_fmap. exists (section q). split; [reflexivity|].
      apply elem_of_first_seen. by apply list_elem_of_fmap_2.
    + rewrite sort_perm. by apply list_elem_of_filter.
  - intros name arr q (name' & Heq & _)%list_elem_of_fmap Hq.
    injection Heq as -> ->.
    rewrite sort_perm in Hq. by apply list_elem_of_filter in Hq.
  - rewrite <- (grouped_perm faqs) at 2. unfold grouped.
    rewrite <- !list_fmap_compose.
    generalize (first_seen (section <$> faqs)). intros names.
    induction names as [|name names IH]; [done|].
    csimpl. by rewrite sort_perm, IH.
Qed.

(** X12. The sections of the FAQ partial, whatever their names: first
    those named by an array index, by ascending index, then the others in
    the order in which each is first seen. *)
Theorem faq_sections_indices_then_first_seen
    (faqs : list FAQ) (sections : object (list FAQ))
    (linkableTerms : LinkableTerms) :
  organizeFAQ faqs = Returned sections ->
  let names := first_seen (section <$> faqs) in
  let indices := filter (fun k => is_Some (array_index k)) names in
  let others := filter (fun k => array_index k = None) names in
  exists ascending,
    ascending ≡ₚ indices
    /\ StronglySorted (fun a b => index_value a <= index_value b) ascending
    /\ (for_in sections).*1 = ascending ++ others
    /\ renderSections sections linkableTerms
       = concat ((fun name =>
                    sectionTitle name
                    ++ renderFAQs
                         (sort by_order (filter (fun q => section q = name) faqs))
                         linkableTerms)
                   <$> (ascending ++ others)).
Proof.
  intros [Hall ->]%organizeFAQ_Returned_inv names indices others.
  exists (sort (fun a b => index_value a - index_value b) indices).
  split; [apply sort_perm|]. split.
  - eapply StronglySorted_weaken; [|apply sort_sorted].
    + unfold before. intros a b. lia.
    + split; intros; lia.
  - rewrite renderSections_concat.
    rewrite (for_in_fmap
               (fun name => sort by_order (filter (fun q => section q = name) faqs))).
    split; [apply keys_fmap|]. by rewrite <- list_fmap_compose.
Qed.

(** X13. No section is empty, and there are at most as many sections as
    questions. *)
Theorem organizeFAQ_sections_not_empty
    (faqs : list FAQ) (sections : object (list FAQ)) :
  organizeFAQ faqs = Returned sections ->
  Forall (fun kv => kv.2 <> []) sections
  /\ (length sections <= length faqs)%nat.
Proof.
  intros [Hall ->]%organizeFAQ_Returned_inv. split.
  - apply Forall_fmap, Forall_forall.
    intros name (q & -> & Hq)%elem_of_first_seen%list_elem_of_fmap. cbn.
    intros Hnil.
    assert (q ∈ sort by_order (filter (fun q' => section q' = section q) faqs))
      as Hin by (rewrite sort_perm; by apply list_elem_of_filter).
    rewrite Hnil in Hin. by apply elem_of_nil in Hin.
  - rewrite length_fmap.
    pose proof (length_first_seen (section <$> faqs)) as Hlen.
    by rewrite length_fmap in Hlen.
Qed.

(** X14. The FAQ partial that [main] writes is the empty string exactly
    when there is no question. *)
Theorem faq_partial_empty_iff_no_question (governanceProject : Project)
    (faqs : list FAQ) (definitions : list Definition_) (parts : Partials) :
  main governanceProject faqs definitions = Returned parts ->
  faq_partial parts = [] <-> faqs = [].
Proof.
  unfold main. destruct (organizeFAQ faqs) as [sections|] eqn:Horg; [|done].
  intros [= <-]. cbn [faq_partial].
  apply organizeFAQ_Returned_inv in Horg as [_ ->].
  rewrite renderSections_concat, for_in_fmap, <- list_fmap_compose.
  split.
  - intros Hempty. destruct faqs as [|q faqs]; [done|]. exfalso.
    assert (section q ∈ first_seen (section <$> q :: faqs)) as Hin by left.
    revert Hempty.
    match goal with |- concat (_ <$> ?visits) = [] -> _ =>
      assert (exists name rest, visits = name :: rest) as (name & rest & ->)
    end.
    { match goal with |- exists _ _, ?visits = _ =>
        assert (section q ∈ visits) as Hq; [|destruct visits; [by apply elem_of_nil in Hq|by eexists _, _]]
      end.
      rewrite elem_of_app, sort_perm, !list_elem_of_filter.
      destruct (array_index (section q)) eqn:Hidx; [left|right]; by split. }
    csimpl. unfold sectionTitle. discriminate.
  - by intros ->.
Qed.

(** X15. The sections and their contents depend on the order of the
    questions only through the order in which the sections are first seen,
    when no two questions of a section have the same [order]. *)
Theorem organizeFAQ_any_order_without_ties (faqs faqs' : list FAQ) :
  faqs ≡ₚ faqs' ->
  first_seen (section <$> faqs) = first_seen (section <$> faqs') ->
  NoDup faqs ->
  (forall a b,
     a ∈ faqs -> b ∈ faqs -> section a = section b -> order a = order b -> a = b) ->
  organizeFAQ faqs = organizeFAQ faqs'.
Proof.
  intros Hp Hseen Hnd Hties.
  rewrite !organizeFAQ_grouped. unfold grouped. rewrite <- Hseen.
  destruct (decide (Forall _ faqs)) as [Hall|Hall].
  - rewrite decide_True by (by rewrite <- Hp). f_equal.
    rewrite <- !list_fmap_compose. apply list_fmap_ext. intros i name _. cbn.
    f_equal. apply (sort_permutation_no_ties _ by_order_consistent).
    + by rewrite Hp.
    + by apply NoDup_filter.
    + intros a b [Ha Hina]%list_elem_of_filter [Hb Hinb]%list_elem_of_filter Ht.
      apply Hties; [done..|congruence|]. unfold by_order in Ht. lia.
  - by rewrite decide_False by (by rewrite <- Hp).
Qed.

End Sections.

(** ** The pairs of the FAQ partial *)

Section Pairs.
Context `{Format}.


End Pairs.

(** ** Examples of the further properties *)

(** The members of a short list are distinct. *)
Ltac distinct_members :=
  repeat (apply NoDup_cons_2;
          [ let Hin := fresh "Hin" in
            intros Hin;
            repeat (apply elem_of_cons in Hin as [Hin|Hin]; [discriminate Hin|]);
            by apply elem_of_nil in Hin
          | ]);
  apply NoDup_nil_2.

(** Two members of a short list that a test takes for equal are the same. *)
Ltac same_member Ha Hb Ht :=
  repeat (apply elem_of_cons in Ha as [Ha|Ha]; [subst|]);
  try (by apply elem_of_nil in Ha);
  repeat (apply elem_of_cons in Hb as [Hb|Hb]; [subst|]);
  try (by apply elem_of_nil in Hb);
  try reflexivity; try (vm_compute in Ht; discriminate Ht).

Section FurtherExamples.
Import Sample.
#[local] Existing Instance Sample.types.
#[local] Existing Instance Sample.format.
#[local] Existing Instance Sample.collation.

Lemma formatDefinitions_any_order_without_ties_witness :
  formatDefinitions [quorum_upper; airdrop; delegate] lt_empty
  = formatDefinitions [delegate; quorum_upper; airdrop] lt_empty.
Proof.
  apply (formatDefinitions_any_order_without_ties
           [quorum_upper; airdrop; delegate] [delegate; quorum_upper; airdrop]
           lt_empty collation_consistent).
  - etransitivity; [apply perm_skip, perm_swap|apply perm_swap].
  - distinct_members.
  - intros a b Ha Hb Ht. same_member Ha Hb Ht.
Defined.

Lemma formatDefinitions_keeps_sorted_input_witness :
  formatDefinitions [delegate; quorum_upper; quorum_lower] lt_empty
  = glossaryOpen
    ++ join ((fun def => glossaryEntry (renderDefinition def lt_empty))
               <$> [delegate; quorum_upper; quorum_lower])
    ++ glossaryClose.
Proof.
  apply (formatDefinitions_keeps_sorted_input
           [delegate; quorum_upper; quorum_lower] lt_empty collation_consistent).
  repeat constructor; vm_compute; discriminate.
Defined.

Lemma linkableTerms_last_definition_wins_witness :
  lt_own (buildLinkableTerms governance [quorum_upper; airdrop; quorum_again] lt_empty)
    !! lit "p1"
  = Some {| text := lit "Quorum"; anchor := lit "Quorum";
            page := lit "../dao-glossary.md"; valid := Publishable;
            notionURL := lit "n/p1b" |}.
Proof.
  assert (pageId quorum_again ∉ pageId <$> @nil Definition_) as Hafter
    by apply not_elem_of_nil.
  assert (pageId quorum_again <> lit "__proto__") as Hproto by discriminate.
  exact (linkableTerms_last_definition_wins
           governance [quorum_upper; airdrop] [] quorum_again Hafter Hproto).
Defined.

Lemma linkableTerms_entry_of_definition_witness :
  exists d,
    d ∈ definitions
    /\ pageId d = lit "p3"
    /\ page (linkableTerm governance airdrop lt_empty) = lit "../dao-glossary.md"
    /\ valid (linkableTerm governance airdrop lt_empty)
       = validDefinitionToPublish d governance
    /\ notionURL (linkableTerm governance airdrop lt_empty) = url d.
Proof.
  apply (linkableTerms_entry_of_definition governance definitions (lit "p3")).
  vm_compute. reflexivity.
Defined.

Lemma published_iff_entry_valid_witness :
  airdrop ∈ publishedDefinitions governance definitions
  <-> exists e,
        lt_own (buildLinkableTerms governance definitions lt_empty)
          !! pageId airdrop = Some e
        /\ valid e = Valid.
Proof.
  apply (published_iff_entry_valid governance definitions airdrop).
  - apply (bool_decide_unpack _). vm_compute. exact I.
  - do 2 right. left.
  - discriminate.
Defined.

Lemma organizeFAQ_partitions_questions_witness :
  exists sections,
    organizeFAQ faqs = Returned sections
    /\ NoDup sections.*1
    /\ (forall q, q ∈ faqs -> exists arr, (section q, arr) ∈ sections /\ q ∈ arr)
    /\ (forall name arr q,
          (name, arr) ∈ sections -> q ∈ arr -> section q = name /\ q ∈ faqs)
    /\ concat sections.*2 ≡ₚ faqs.
Proof.
  exists [(lit "Voting", [who_votes; how_to_vote]); (lit "Rewards", [when_paid])].
  assert (organizeFAQ faqs
          = Returned [(lit "Voting", [who_votes; how_to_vote]);
                      (lit "Rewards", [when_paid])]) as Horg
    by (vm_compute; reflexivity).
  split; [exact Horg|].
  exact (organizeFAQ_partitions_questions faqs _ Horg).
Defined.

Lemma faq_sections_indices_then_first_seen_witness :
  exists sections ascending,
    organizeFAQ [lettered; numbered] = Returned sections
    /\ ascending ≡ₚ [lit "1"]
    /\ (for_in sections).*1 = ascending ++ [lit "b"].
Proof.
  assert (organizeFAQ [lettered; numbered]
          = Returned [(lit "b", [lettered]); (lit "1", [numbered])]) as Horg
    by (vm_compute; reflexivity).
  destruct (faq_sections_indices_then_first_seen
              [lettered; numbered] _ lt_empty Horg)
    as (ascending & Hperm & _ & Hkeys & _).
  exists [(lit "b", [lettered]); (lit "1", [numbered])], ascending.
  split; [exact Horg|]. split; [exact Hperm|exact Hkeys].
Defined.

Lemma organizeFAQ_sections_not_empty_witness :
  exists sections,
    organizeFAQ faqs = Returned sections
    /\ Forall (fun kv => kv.2 <> []) sections
    /\ (length sections <= length faqs)%nat.
Proof.
  exists [(lit "Voting", [who_votes; how_to_vote]); (lit "Rewards", [when_paid])].
  assert (organizeFAQ faqs
          = Returned [(lit "Voting", [who_votes; how_to_vote]);
                      (lit "Rewards", [when_paid])]) as Horg
    by (vm_compute; reflexivity).
  split; [exact Horg|].
  exact (organizeFAQ_sections_not_empty faqs _ Horg).
Defined.

Lemma faq_partial_empty_iff_no_question_witness :
  main governance faqs definitions = Returned partials
  /\ (faq_partial partials = [] <-> faqs = []).
Proof.
  assert (main governance faqs definitions = Returned partials) as Hmain
    by (vm_compute; reflexivity).
  split; [exact Hmain|].
  exact (faq_partial_empty_iff_no_question governance faqs definitions partials Hmain).
Defined.

Lemma organizeFAQ_any_order_without_ties_witness :
  organizeFAQ [how_to_vote; who_votes; when_paid]
  = organizeFAQ [who_votes; when_paid; how_to_vote].
Proof.
  apply organizeFAQ_any_order_without_ties.
  - etransitivity; [apply perm_swap|apply perm_skip, perm_swap].
  - vm_compute. reflexivity.
  - distinct_members.
  - intros a b Ha Hb Hs Ho. same_member Ha Hb Ho; vm_compute in Hs; discriminate Hs.
Defined.


End FurtherExamples.
